(** * serializer.h: a byte-buffer serializer and deserializer

    A shallow embedding of [src/serializer.h] and the properties of its
    encode/decode operations.

    Platform model.  The header is written for a host where
    - [size_t] is a 64-bit unsigned integer (arithmetic on it wraps modulo
      2^64),
    - [uint32_t] is a 32-bit unsigned integer,
    - [int32_t] is a 32-bit two's-complement integer,
    - the native byte order is little-endian, and
    - a [std::vector<uint8_t>] holds at most [PTRDIFF_MAX] = 2^63 - 1 bytes.

    A subscript out of range ([v[i]] with [i >= v.size()] on a vector,
    [s[i]] with [i > s.size()] on a string) has no defined behaviour; a
    call that reaches one ends with the status [Undefined].

    A value of an arithmetic type [T] is represented by the unsigned integer
    whose little-endian bytes are its object representation ([sizeof T]
    bytes); [memcpy] of such an object is therefore [le_split] in one
    direction and [le_combine] in the other. *)

From Stdlib Require Import ZArith List String Ascii Lia Bool.
From coqutil Require Import Byte Word.LittleEndianList.
Import ListNotations.

Local Open Scope Z_scope.

(** ** Integer types of the host *)

Definition SIZE_MAX : Z := 2 ^ 64 - 1.
Definition PTRDIFF_MAX : Z := 2 ^ 63 - 1.
Definition INT32_MAX : Z := 2 ^ 31 - 1.

(** Unsigned arithmetic on [size_t]. *)
Definition size_t (z : Z) : Z := z mod 2 ^ 64.

(** [static_cast<uint32_t>(n)]. *)
Definition uint32_t (z : Z) : Z := z mod 2 ^ 32.

(** The value of an [int32_t] after an arithmetic step, with the
    two's-complement wrap-around of the host written out. *)
Definition int32_t (z : Z) : Z := (z + 2 ^ 31) mod 2 ^ 32 - 2 ^ 31.

(** The arithmetic types accepted by [std::is_arithmetic]. *)
Inductive arith : Type :=
| Bool | Char | Int8 | UInt8 | Int16 | UInt16
| Int32 | UInt32 | Int64 | UInt64 | Float | Double.

Definition sizeof (T : arith) : nat :=
  match T with
  | Bool | Char | Int8 | UInt8 => 1
  | Int16 | UInt16 => 2
  | Int32 | UInt32 | Float => 4
  | Int64 | UInt64 | Double => 8
  end.

(** [v] is the object representation of some value of type [T]. *)
Definition representable (T : arith) (v : Z) : Prop :=
  0 <= v < 2 ^ (Z.of_nat (sizeof T) * 8).

(** [sizeof(std::vector<T>)] on the 64-bit host: three pointers, and for
    the bit-packed specialisation [std::vector<bool>] two bit iterators
    and a pointer. *)
Definition sizeof_vector (T : arith) : nat :=
  match T with
  | Bool => 40
  | _ => 24
  end.

(** ** Raw memory operations *)

Definition size (v : list byte) : Z := Z.of_nat (List.length v).

(** [v.resize(n)] on a byte container: truncate, or pad with zero bytes. *)
Definition resize (v : list byte) (n : nat) : list byte :=
  firstn n v ++ repeat Byte.x00 (n - List.length v).

(** [std::memcpy(&dst[0], &src[from], n)]: the first [n] bytes of [dst] are
    overwritten by the [n] bytes of [src] that start at offset [from]. *)
Definition memcpy (dst src : list byte) (from : Z) (n : nat) : list byte :=
  firstn n (skipn (Z.to_nat from) src) ++ skipn n dst.

(** [&v[i]] on a [std::vector]: [operator[]] requires [i < v.size()]. *)
Definition vector_at_defined (v : list byte) (i : Z) : bool :=
  (0 <=? i) && (i <? size v).

(** [&s[i]] on a [std::string]: [operator[]] requires [i <= s.size()]
    (at [i = s.size()] it refers to the terminating null character). *)
Definition string_at_defined (s : list byte) (i : Z) : bool :=
  (0 <=? i) && (i <=? size s).

(** ** The hex renderer *)

Definition hex_digit (n : Z) : ascii :=
  match n with
  | 0 => "0" | 1 => "1" | 2 => "2" | 3 => "3" | 4 => "4" | 5 => "5"
  | 6 => "6" | 7 => "7" | 8 => "8" | 9 => "9" | 10 => "a" | 11 => "b"
  | 12 => "c" | 13 => "d" | 14 => "e" | _ => "f"
  end%char.

(** [ss << std::hex << v] for an [int] in [0, 255]: the digits of [v] in
    base 16, lower case, with no prefix and no leading zero. *)
Definition hex_digits (v : Z) : string :=
  if v <? 16 then String (hex_digit v) EmptyString
  else String (hex_digit (v / 16)) (String (hex_digit (v mod 16)) EmptyString).

(** [std::setw(w)] with [std::setfill(fill)]: pad on the left. *)
Fixpoint pad (n : nat) (fill : ascii) (s : string) : string :=
  match n with
  | O => s
  | S n' => String fill (pad n' fill s)
  end.

Definition setw (w : nat) (fill : ascii) (s : string) : string :=
  pad (w - String.length s) fill s.

(** [ss << std::setw(2) << static_cast<int>(b)] under [std::hex] and
    [std::setfill('0')]. *)
Definition put_byte (b : byte) : string :=
  setw 2 "0"%char (hex_digits (byte.unsigned b)).

(** The loop [for (int32_t i = 0; i < count; ++i)] of [bytes_to_hex], with
    [rest] the bytes from [in[i]] on.  The comparison converts [i] to
    [size_t]; [++i] is 32-bit signed arithmetic (its overflow is undefined
    in C++; the model takes the wrap-around of the host).  Both callers
    pass the size of the vector as [count], so [rest] is empty only when
    the comparison fails; a read behind the last byte renders nothing. *)
Fixpoint bytes_to_hex_loop (rest : list byte) (i count : Z) (ss : string)
  : string :=
  if size_t i <? count then
    match rest with
    | [] => ss
    | b :: rest' =>
        bytes_to_hex_loop rest' (int32_t (i + 1)) count (ss ++ put_byte b)
    end
  else ss.

(** [bytes_to_hex(in, count)]. *)
Definition bytes_to_hex (in_ : list byte) (count : Z) : string :=
  bytes_to_hex_loop in_ 0 count "".

(** ** The serializer *)

Module serializer.

Record t : Type := mk { data : list byte }.

(** [serializer(size_t capacity = 0)]: [reserve] does not change the
    contents. *)
Definition create (capacity : Z) : t := mk [].

(** [operator<<(const T& value)] for arithmetic [T]. *)
Definition insert (T : arith) (value : Z) (s : t) : t :=
  mk (data s ++ le_split (sizeof T) value).

(** [operator<<(const std::string& value)]. *)
Definition insert_string (value : string) (s : t) : t :=
  let length := uint32_t (Z.of_nat (String.length value)) in
  let s1 := insert UInt32 length s in
  mk (data s1 ++ firstn (Z.to_nat length) (list_byte_of_string value)).

(** [operator<<(const std::vector<T>& value)] for arithmetic [T]. *)
Definition insert_vector (T : arith) (value : list Z) (s : t) : t :=
  let size := uint32_t (Z.of_nat (List.length value)) in
  fold_left (fun self element => insert T element self) value
            (insert UInt32 size s).

Definition get_data (s : t) : list byte := data s.

Definition clear (s : t) : t := mk [].

End serializer.

(** ** The deserializer *)

(** [std::runtime_error(what)]. *)
Inductive exception : Type := runtime_error (what : string).

(** The one error of the decoder: [std::runtime_error("Buffer overflow!")]. *)
Definition BufferOverflow : exception := runtime_error "Buffer overflow!".

(** How a call ends: it returns, it leaves by a thrown exception, or it
    reaches an operation whose behaviour is undefined (an [operator[]]
    out of range; checked library builds abort there).  In the last case
    the outcome of the call records the state in which that operation is
    reached. *)
Inductive status : Type :=
| Returned
| Thrown (e : exception)
| Undefined.

Module deserializer.

Record t : Type := mk { buffer : list byte; pos : Z }.

(** The state in which a call of [operator>>] ends: how it ended, the
    object behind the reference parameter [data], and the decoder. *)
Record outcome (A : Type) : Type :=
  Outcome { st : status; out : A; self : t }.
Arguments Outcome {A} _ _ _.
Arguments st {A} _.
Arguments out {A} _.
Arguments self {A} _.

(** [deserializer(const std::vector<uint8_t>& buf)]. *)
Definition create (buf : list byte) : t := mk buf 0.

Definition get_pos (d : t) : Z := pos d.

(** [pos += n]. *)
Definition advance (d : t) (n : Z) : t := mk (buffer d) (size_t (pos d + n)).

(** The template [operator>>(T& data)] at a type of [n] bytes, on the
    object representation of [data].  Every type has [n >= 1], so behind
    the check [pos < buffer.size()] and [&buffer[pos]] is in range. *)
Definition extract_object (n : nat) (data : list byte) (d : t)
  : outcome (list byte) :=
  if size_t (pos d + Z.of_nat n) >? size (buffer d)
  then Outcome (Thrown BufferOverflow) data d
  else Outcome Returned (memcpy data (buffer d) (pos d) n)
               (advance d (Z.of_nat n)).

(** The template [operator>>(T& data)] at an arithmetic type [T]. *)
Definition extract (T : arith) (data : Z) (d : t) : outcome Z :=
  let r := extract_object (sizeof T) (le_split (sizeof T) data) d in
  Outcome (st r) (le_combine (out r)) (self r).

(** The body shared, word for word, by [operator>>(std::string&)] and
    [operator>>(std::vector<uint8_t>&)], on the bytes of [data];
    [at_defined] tells where [operator[]] of the type of [data] is
    defined.  The two arguments [&data[0]] and [&buffer[pos]] of [memcpy]
    are evaluated also when [size] is 0. *)
Definition extract_sized (at_defined : list byte -> Z -> bool)
    (data : list byte) (d : t) : outcome (list byte) :=
  (* uint32_t size; *this >> size;   ([size] starts uninitialised; any
     initial value gives the same result, see [extract_initial]) *)
  let r := extract UInt32 0 d in
  match st r with
  | Thrown e => Outcome (Thrown e) data (self r)
  | Undefined => Outcome Undefined data (self r)
  | Returned =>
      let size_ := out r in
      let d1 := self r in
      if size_t (pos d1 + size_) >? size (buffer d1)
      then Outcome (Thrown BufferOverflow) data d1
      else
        let data1 := resize data (Z.to_nat size_) in
        if at_defined data1 0 && vector_at_defined (buffer d1) (pos d1)
        then
          let data2 := memcpy data1 (buffer d1) (pos d1) (Z.to_nat size_) in
          Outcome Returned data2 (advance d1 size_)
        else Outcome Undefined data1 d1
  end.

(** [operator>>(std::string& data)]. *)
Definition extract_string (data : string) (d : t) : outcome string :=
  let r := extract_sized string_at_defined (list_byte_of_string data) d in
  Outcome (st r) (string_of_list_byte (out r)) (self r).

(** [operator>>(std::vector<uint8_t>& data)]. *)
Definition extract_bytes (data : list byte) (d : t) : outcome (list byte) :=
  extract_sized vector_at_defined data d.

(** What a [std::vector<T>] object holds after [d >> data]: its elements,
    or, when the template has copied raw buffer bytes over the object
    itself (which is not a value of the type, and undefined), those
    bytes. *)
Inductive vector_object : Type :=
| Elements (l : list Z)
| Overwritten (raw : list byte).

(** [d >> data] for [std::vector<T>& data] with arithmetic [T].  Overload
    resolution picks [operator>>(std::vector<uint8_t>&)] for
    [T = uint8_t]; for every other [T] only the template matches, at the
    type [std::vector<T>] itself. *)
Definition extract_vector (T : arith) (data : list Z) (d : t)
  : outcome vector_object :=
  match T with
  | UInt8 =>
      let r := extract_bytes (map byte.of_Z data) d in
      Outcome (st r) (Elements (map byte.unsigned (out r))) (self r)
  | _ =>
      let r := extract_object (sizeof_vector T) [] d in
      match st r with
      | Thrown e => Outcome (Thrown e) (Elements data) (self r)
      | Undefined => Outcome Undefined (Elements data) (self r)
      | Returned => Outcome Undefined (Overwritten (out r)) (self r)
      end
  end.

(** The read operations of the decoder, each with the object its
    reference parameter is bound to, and a call of one of them. *)
Inductive read : Type :=
| ReadFixed (T : arith) (data : Z)
| ReadString (data : string)
| ReadBytes (data : list byte).

Definition run (op : read) (d : t) : status * t :=
  match op with
  | ReadFixed T data => let r := extract T data d in (st r, self r)
  | ReadString data => let r := extract_string data d in (st r, self r)
  | ReadBytes data => let r := extract_bytes data d in (st r, self r)
  end.

(** The states a decoder goes through: constructed from a vector, then
    any number of reads, returning or throwing. *)
Inductive reachable : t -> Prop :=
| reachable_create buf :
    size buf <= PTRDIFF_MAX -> reachable (create buf)
| reachable_run op d :
    reachable d -> reachable (snd (run op d)).

(** The class invariant: the cursor lies inside the buffer, and the
    buffer is a [std::vector<uint8_t>] (at most [PTRDIFF_MAX] bytes). *)
Definition valid (d : t) : Prop :=
  0 <= pos d <= size (buffer d) /\ size (buffer d) <= PTRDIFF_MAX.

(** The bytes from the cursor on, and the [uint32_t] stored there. *)
Definition remaining (d : t) : list byte :=
  skipn (Z.to_nat (pos d)) (buffer d).

Definition peek_uint32 (d : t) : Z := le_combine (firstn 4 (remaining d)).

End deserializer.

(** [deserializer::str()] and [serializer::str()]. *)
Definition deserializer_str (d : deserializer.t) : string :=
  bytes_to_hex (deserializer.buffer d) (size (deserializer.buffer d)).

Definition serializer_str (s : serializer.t) : string :=
  bytes_to_hex (serializer.data s) (size (serializer.data s)).

(** The rendering the loop is meant to produce: one pair per byte. *)
Fixpoint hex_pairs (l : list byte) : string :=
  match l with
  | [] => EmptyString
  | b :: l' => put_byte b ++ hex_pairs l'
  end.

Definition is_lower_hex (c : ascii) : bool :=
  existsb (Ascii.eqb c) (list_ascii_of_string "0123456789abcdef").

(** ** Sequences of strings and of sequences *)

(** The template [operator<<(const std::vector<T>& value)] at any element
    type: [put] is the overload of [operator<<] that the loop body, the
    write of one [element], resolves to for [T]. *)
Definition insert_vector_of {A : Type}
    (put : A -> serializer.t -> serializer.t) (value : list A)
    (s : serializer.t) : serializer.t :=
  let size := uint32_t (Z.of_nat (List.length value)) in
  fold_left (fun self element => put element self) value
            (serializer.insert UInt32 size s).

(** [s << value] for [std::vector<std::string>]. *)
Definition insert_vector_string : list string -> serializer.t -> serializer.t :=
  insert_vector_of serializer.insert_string.

(** [s << value] for [std::vector<std::vector<T>>] with arithmetic [T]. *)
Definition insert_vector_vector (T : arith)
  : list (list Z) -> serializer.t -> serializer.t :=
  insert_vector_of (serializer.insert_vector T).

(** The bytes one write puts on the wire: what it appends to an empty
    encoder. *)
Definition encoding (put : serializer.t -> serializer.t) : list byte :=
  serializer.get_data (put (serializer.create 0)).

(** A write is concatenative when it appends to the buffer what it would
    put into an empty encoder, whatever the buffer holds. *)
Definition concatenative (put : serializer.t -> serializer.t) : Prop :=
  forall s, serializer.data (put s) = serializer.data s ++ encoding put.

(** Reading a rendered pair back, to tell renderings apart: the value of a
    hex digit and of the first two characters of a string. *)
Definition hex_value (c : ascii) : Z :=
  let n := Z.of_N (N_of_ascii c) in
  if n <? 58 then n - 48 else n - 87.

Definition pair_value (s : string) : Z :=
  match s with
  | String c1 (String c2 _) => 16 * hex_value c1 + hex_value c2
  | _ => 0
  end.

(** * Properties *)

Example insert_u32_42 :
  serializer.get_data (serializer.insert UInt32 42 (serializer.create 0))
  = [Byte.x2a; Byte.x00; Byte.x00; Byte.x00].
Proof. reflexivity. Qed.

Example insert_string_hi :
  serializer.get_data (serializer.insert_string "hi" (serializer.create 0))
  = [Byte.x02; Byte.x00; Byte.x00; Byte.x00; Byte.x68; Byte.x69].
Proof. vm_compute. reflexivity. Qed.

Example put_byte_05 : put_byte Byte.x05 = "05"%string.
Proof. reflexivity. Qed.

Example hex_002aff :
  bytes_to_hex [Byte.x00; Byte.x2a; Byte.xff] 3 = "002aff"%string.
Proof. vm_compute. reflexivity. Qed.

Example scenario_reads :
  let d := deserializer.create
             (serializer.get_data
                (serializer.insert_string "hi"
                   (serializer.insert UInt32 42 (serializer.create 0)))) in
  let r1 := deserializer.extract UInt32 0 d in
  let r2 := deserializer.extract_string "" (deserializer.self r1) in
  (deserializer.out r1, deserializer.out r2,
   deserializer.pos (deserializer.self r2)) = (42, "hi"%string, 10).
Proof. vm_compute. reflexivity. Qed.

(** ** Machine arithmetic and raw memory *)

Lemma size_t_small z : 0 <= z <= SIZE_MAX -> size_t z = z.
Proof. unfold size_t, SIZE_MAX. intros H. apply Z.mod_small. lia. Qed.

Lemma uint32_t_small z : 0 <= z < 2 ^ 32 -> uint32_t z = z.
Proof. unfold uint32_t. intros H. apply Z.mod_small. lia. Qed.

Lemma size_nonneg v : 0 <= size v.
Proof. unfold size. lia. Qed.

Lemma size_app u v : size (u ++ v) = size u + size v.
Proof. unfold size. rewrite length_app. lia. Qed.

Lemma length_resize v n : List.length (resize v n) = n.
Proof.
  unfold resize. rewrite length_app, length_firstn, repeat_length. lia.
Qed.

Lemma memcpy_full dst src from n :
  List.length dst = n ->
  memcpy dst src from n = firstn n (skipn (Z.to_nat from) src).
Proof.
  intros H. unfold memcpy. rewrite (skipn_all2 (n:=n) dst) by lia.
  apply app_nil_r.
Qed.

Lemma le_combine_4_range bs : 0 <= le_combine (firstn 4 bs) < 2 ^ 32.
Proof.
  pose proof (le_combine_bound (firstn 4 bs)) as H.
  pose proof (length_firstn 4 bs) as L.
  assert (2 ^ (8 * Z.of_nat (List.length (firstn 4 bs))) <= 2 ^ 32).
  { apply Z.pow_le_mono_r; lia. }
  clear L. revert H H0.
  generalize (2 ^ (8 * Z.of_nat (List.length (firstn 4 bs)))). lia.
Qed.

Lemma peek_uint32_range d : 0 <= deserializer.peek_uint32 d < 2 ^ 32.
Proof. apply le_combine_4_range. Qed.

(** ** One call of the template [operator>>] *)

Section Extract.
Import deserializer.

Variable d : t.
Hypothesis Hvalid : valid d.

Lemma extract_object_returns n data :
  pos d + Z.of_nat n <= size (buffer d) ->
  extract_object n data d
  = Outcome Returned (memcpy data (buffer d) (pos d) n)
            (mk (buffer d) (pos d + Z.of_nat n)).
Proof.
  intros H. destruct Hvalid as [Hp Hs]. unfold PTRDIFF_MAX in Hs.
  unfold extract_object, advance.
  rewrite size_t_small by (unfold SIZE_MAX; lia).
  destruct (Z.gtb_spec (pos d + Z.of_nat n) (size (buffer d))); [lia|].
  reflexivity.
Qed.

Lemma extract_object_throws n data :
  Z.of_nat n <= PTRDIFF_MAX ->
  size (buffer d) < pos d + Z.of_nat n ->
  extract_object n data d = Outcome (Thrown BufferOverflow) data d.
Proof.
  intros Hn H. destruct Hvalid as [Hp Hs]. unfold PTRDIFF_MAX in *.
  unfold extract_object.
  rewrite size_t_small by (unfold SIZE_MAX; lia).
  destruct (Z.gtb_spec (pos d + Z.of_nat n) (size (buffer d))); [|lia].
  reflexivity.
Qed.

Lemma sizeof_small T : 1 <= Z.of_nat (sizeof T) <= 8.
Proof. destruct T; simpl; lia. Qed.

Lemma extract_returns T data :
  pos d + Z.of_nat (sizeof T) <= size (buffer d) ->
  extract T data d
  = Outcome Returned (le_combine (firstn (sizeof T) (remaining d)))
            (mk (buffer d) (pos d + Z.of_nat (sizeof T))).
Proof.
  intros H. unfold extract. rewrite extract_object_returns by assumption.
  cbn [st out self]. rewrite memcpy_full by apply length_le_split.
  reflexivity.
Qed.

Lemma extract_throws T data :
  size (buffer d) < pos d + Z.of_nat (sizeof T) ->
  extract T data d
  = Outcome (Thrown BufferOverflow)
            (data mod 2 ^ (Z.of_nat (sizeof T) * 8)) d.
Proof.
  intros H. unfold extract. pose proof (sizeof_small T).
  rewrite extract_object_throws by (unfold PTRDIFF_MAX; lia).
  cbn [st out self]. rewrite le_combine_split. reflexivity.
Qed.

(** The three ways [operator>>(std::string&)] and
    [operator>>(std::vector<uint8_t>&)] end. *)

Lemma extract_sized_no_prefix at_defined data :
  size (buffer d) < pos d + 4 ->
  extract_sized at_defined data d = Outcome (Thrown BufferOverflow) data d.
Proof.
  intros H. unfold extract_sized.
  rewrite (extract_throws UInt32) by (simpl; lia). reflexivity.
Qed.

Lemma extract_sized_short at_defined data :
  pos d + 4 <= size (buffer d) ->
  size (buffer d) < pos d + 4 + peek_uint32 d ->
  extract_sized at_defined data d
  = Outcome (Thrown BufferOverflow) data (mk (buffer d) (pos d + 4)).
Proof.
  intros H4 H. destruct Hvalid as [Hp Hs]. unfold PTRDIFF_MAX in Hs.
  pose proof (peek_uint32_range d) as Hr.
  unfold extract_sized.
  rewrite (extract_returns UInt32) by (simpl; lia).
  cbn [st out self sizeof pos buffer]. fold (peek_uint32 d).
  change (Z.of_nat 4) with 4.
  rewrite size_t_small by (unfold SIZE_MAX; lia).
  destruct (Z.gtb_spec (pos d + 4 + peek_uint32 d) (size (buffer d)));
    [reflexivity | lia].
Qed.

(** Behind the two checks: the call returns when both subscripts are in
    range, and is undefined otherwise. *)
Lemma extract_sized_fits at_defined data :
  pos d + 4 + peek_uint32 d <= size (buffer d) ->
  extract_sized at_defined data d
  = if at_defined (resize data (Z.to_nat (peek_uint32 d))) 0
       && vector_at_defined (buffer d) (pos d + 4)
    then Outcome Returned
                 (firstn (Z.to_nat (peek_uint32 d))
                         (skipn (Z.to_nat (pos d + 4)) (buffer d)))
                 (mk (buffer d) (pos d + 4 + peek_uint32 d))
    else Outcome Undefined (resize data (Z.to_nat (peek_uint32 d)))
                 (mk (buffer d) (pos d + 4)).
Proof.
  intros H. destruct Hvalid as [Hp Hs]. unfold PTRDIFF_MAX in Hs.
  pose proof (peek_uint32_range d) as Hr.
  unfold extract_sized.
  rewrite (extract_returns UInt32) by (simpl; lia).
  cbn [st out self sizeof pos buffer]. fold (peek_uint32 d).
  change (Z.of_nat 4) with 4.
  rewrite size_t_small by (unfold SIZE_MAX; lia).
  destruct (Z.gtb_spec (pos d + 4 + peek_uint32 d) (size (buffer d)));
    [lia|].
  destruct (_ && _); [|reflexivity].
  unfold advance. cbn [pos buffer].
  rewrite size_t_small by (unfold SIZE_MAX; lia).
  rewrite memcpy_full by apply length_resize. reflexivity.
Qed.

Lemma vector_at_defined_iff v i :
  vector_at_defined v i = true <-> 0 <= i < size v.
Proof.
  unfold vector_at_defined. rewrite andb_true_iff, Z.leb_le, Z.ltb_lt.
  tauto.
Qed.

Lemma string_at_defined_0 v : string_at_defined v 0 = true.
Proof.
  unfold string_at_defined. pose proof (size_nonneg v).
  rewrite andb_true_iff, !Z.leb_le. lia.
Qed.

Lemma vector_at_defined_resize data n :
  vector_at_defined (resize data n) 0 = negb (Nat.eqb n 0).
Proof.
  unfold vector_at_defined, size. rewrite length_resize.
  destruct n; [reflexivity|]. cbn [Nat.eqb negb andb Z.leb Z.compare].
  apply Z.ltb_lt. lia.
Qed.

Lemma extract_sized_returns at_defined data :
  pos d + 4 + peek_uint32 d <= size (buffer d) ->
  at_defined (resize data (Z.to_nat (peek_uint32 d))) 0 = true ->
  pos d + 4 < size (buffer d) ->
  extract_sized at_defined data d
  = Outcome Returned
            (firstn (Z.to_nat (peek_uint32 d))
                    (skipn (Z.to_nat (pos d + 4)) (buffer d)))
            (mk (buffer d) (pos d + 4 + peek_uint32 d)).
Proof.
  intros H Hat Hin. destruct Hvalid as [Hp Hs].
  rewrite extract_sized_fits by exact H. rewrite Hat.
  rewrite (proj2 (vector_at_defined_iff (buffer d) (pos d + 4))) by lia.
  reflexivity.
Qed.

(** A string read that fits returns unless its length is 0 and nothing
    follows the prefix in the buffer. *)
Lemma extract_sized_string_returns data :
  pos d + 4 + peek_uint32 d <= size (buffer d) ->
  pos d + 4 < size (buffer d) ->
  extract_sized string_at_defined data d
  = Outcome Returned
            (firstn (Z.to_nat (peek_uint32 d))
                    (skipn (Z.to_nat (pos d + 4)) (buffer d)))
            (mk (buffer d) (pos d + 4 + peek_uint32 d)).
Proof.
  intros H Hin. apply extract_sized_returns;
    [exact H | apply string_at_defined_0 | exact Hin].
Qed.

(** A byte-sequence read that fits returns unless its count is 0. *)
Lemma extract_sized_vector_returns data :
  pos d + 4 + peek_uint32 d <= size (buffer d) ->
  0 < peek_uint32 d ->
  extract_sized vector_at_defined data d
  = Outcome Returned
            (firstn (Z.to_nat (peek_uint32 d))
                    (skipn (Z.to_nat (pos d + 4)) (buffer d)))
            (mk (buffer d) (pos d + 4 + peek_uint32 d)).
Proof.
  intros H Hpos. apply extract_sized_returns; [exact H | | lia].
  rewrite vector_at_defined_resize.
  destruct (Z.to_nat (peek_uint32 d)) eqn:E; [lia | reflexivity].
Qed.

Lemma extract_sized_string_undefined data :
  pos d + 4 = size (buffer d) ->
  peek_uint32 d = 0 ->
  extract_sized string_at_defined data d
  = Outcome Undefined [] (mk (buffer d) (pos d + 4)).
Proof.
  intros Hend H0. rewrite extract_sized_fits by lia.
  rewrite H0, string_at_defined_0. cbn [andb].
  destruct (vector_at_defined (buffer d) (pos d + 4)) eqn:E.
  - apply vector_at_defined_iff in E. lia.
  - reflexivity.
Qed.

Lemma extract_sized_vector_undefined data :
  pos d + 4 <= size (buffer d) ->
  peek_uint32 d = 0 ->
  extract_sized vector_at_defined data d
  = Outcome Undefined [] (mk (buffer d) (pos d + 4)).
Proof.
  intros H4 H0. rewrite extract_sized_fits by lia.
  rewrite H0, vector_at_defined_resize. reflexivity.
Qed.

End Extract.

(** The uninitialised local [size] of the two sized reads: the value a
    target holds before the call never shows in a returning call, nor in
    the decoder. *)
Lemma extract_initial T v w d :
  deserializer.st (deserializer.extract T v d)
  = deserializer.st (deserializer.extract T w d)
  /\ deserializer.self (deserializer.extract T v d)
     = deserializer.self (deserializer.extract T w d)
  /\ (deserializer.st (deserializer.extract T v d) = Returned ->
      deserializer.out (deserializer.extract T v d)
      = deserializer.out (deserializer.extract T w d)).
Proof.
  unfold deserializer.extract, deserializer.extract_object.
  destruct (_ >? _); cbn; repeat split; try discriminate.
  intros _. rewrite !memcpy_full by apply length_le_split. reflexivity.
Qed.

(** ** Failing reads *)

Section FailingReads.
Import deserializer.

Lemma extract_returned_inv T data d :
  valid d -> st (extract T data d) = Returned ->
  pos d + Z.of_nat (sizeof T) <= size (buffer d).
Proof.
  intros Hv Hst.
  destruct (Z_le_gt_dec (pos d + Z.of_nat (sizeof T)) (size (buffer d)))
    as [Hle | Hgt]; [exact Hle|].
  rewrite extract_throws in Hst by (assumption || lia). discriminate.
Qed.

(** C1, as amended: when the length prefix is read but the declared
    length runs past the end of the buffer, the string read and the
    byte-sequence read throw BufferOverflow, leave the target as it was,
    and leave the cursor just behind the length prefix, four bytes past
    its value before the call. *)
Theorem declared_length_overflow d :
  valid d ->
  st (extract UInt32 0 d) = Returned ->
  size (buffer d)
  < pos (self (extract UInt32 0 d)) + out (extract UInt32 0 d) ->
  (forall data,
      extract_string data d
      = Outcome (Thrown BufferOverflow) data (mk (buffer d) (pos d + 4)))
  /\ (forall data,
      extract_bytes data d
      = Outcome (Thrown BufferOverflow) data (mk (buffer d) (pos d + 4))).
Proof.
  intros Hv Hst Hlen.
  pose proof (extract_returned_inv _ _ _ Hv Hst) as H4. simpl in H4.
  rewrite (extract_returns d Hv UInt32) in Hlen by exact H4.
  cbn [self out pos sizeof] in Hlen. change (Z.of_nat 4) with 4 in Hlen.
  fold (peek_uint32 d) in Hlen.
  split; intros data.
  - unfold extract_string.
    rewrite extract_sized_short by (assumption || lia).
    cbn [st out self]. rewrite string_of_list_byte_of_string. reflexivity.
  - unfold extract_bytes. apply extract_sized_short; assumption || lia.
Qed.

(** C5: a fixed-width read from a buffer shorter than the value throws
    BufferOverflow; and where four bytes can be read at the cursor but
    the length they declare exceeds what remains behind them, the
    length-prefix read returns while the string read and the
    byte-sequence read throw BufferOverflow. *)
Theorem truncation_detected :
  (forall T buf data,
      size buf < Z.of_nat (sizeof T) ->
      st (extract T data (create buf)) = Thrown BufferOverflow)
  /\ (forall d,
         valid d ->
         pos d + 4 <= size (buffer d) ->
         size (buffer d) - (pos d + 4) < peek_uint32 d ->
         extract UInt32 0 d
         = Outcome Returned (peek_uint32 d) (mk (buffer d) (pos d + 4))
         /\ forall str vec,
             st (extract_string str d) = Thrown BufferOverflow
             /\ st (extract_bytes vec d) = Thrown BufferOverflow).
Proof.
  split.
  - intros T buf data H. pose proof (sizeof_small T) as Hs.
    assert (Hv : valid (create buf)).
    { unfold valid, create, PTRDIFF_MAX. cbn [pos buffer].
      pose proof (size_nonneg buf). lia. }
    rewrite extract_throws by (assumption || (cbn [create pos buffer]; lia)).
    reflexivity.
  - intros d Hv H4 Hlen. split.
    + apply (extract_returns d Hv UInt32). simpl. lia.
    + intros str vec. unfold extract_string, extract_bytes.
      rewrite !extract_sized_short by (assumption || lia).
      split; reflexivity.
Qed.

End FailingReads.

(** ** The cursor *)

Section Cursor.
Import deserializer.

Lemma extract_sized_step at_defined data d :
  valid d ->
  buffer (self (extract_sized at_defined data d)) = buffer d
  /\ pos d <= pos (self (extract_sized at_defined data d))
     <= size (buffer d).
Proof.
  intros Hv. pose proof Hv as [Hp Hs].
  pose proof (peek_uint32_range d) as Hr.
  destruct (Z_le_gt_dec (pos d + 4) (size (buffer d))) as [H4 | H4].
  - destruct (Z_le_gt_dec (pos d + 4 + peek_uint32 d) (size (buffer d))).
    + rewrite extract_sized_fits by assumption.
      destruct (_ && _); cbn [self pos buffer]; (split; [reflexivity | lia]).
    + rewrite extract_sized_short by (assumption || lia).
      cbn [self pos buffer]. split; [reflexivity | lia].
  - rewrite extract_sized_no_prefix by (assumption || lia).
    cbn [self]. split; [reflexivity | lia].
Qed.

Lemma run_step op d :
  valid d ->
  buffer (snd (run op d)) = buffer d
  /\ pos d <= pos (snd (run op d)) <= size (buffer d).
Proof.
  intros Hv. pose proof Hv as [Hp Hs].
  destruct op as [T data | data | data]; cbn [run snd].
  - pose proof (sizeof_small T).
    destruct (Z_le_gt_dec (pos d + Z.of_nat (sizeof T)) (size (buffer d))).
    + rewrite extract_returns by assumption. cbn [self pos buffer]. split; [reflexivity | lia].
    + rewrite extract_throws by (assumption || lia). cbn [self]. split; [reflexivity | lia].
  - unfold extract_string. cbn [self]. apply extract_sized_step, Hv.
  - unfold extract_bytes. apply extract_sized_step, Hv.
Qed.

Lemma reachable_valid d : reachable d -> valid d.
Proof.
  induction 1 as [buf Hbuf | op d Hd IH].
  - unfold valid, create. cbn [pos buffer].
    pose proof (size_nonneg buf). lia.
  - destruct (run_step op d IH) as [Hb Hp]. destruct IH as [Hp0 Hs].
    unfold valid. rewrite Hb. split; lia.
Qed.

(** C7: from every reachable decoder state, every read (fixed-width,
    string or byte sequence), returning or throwing, leaves the buffer as
    it was, keeps 0 <= cursor <= buffer length, and does not move the
    cursor backwards. *)
Theorem cursor_invariant d op :
  reachable d ->
  buffer (snd (run op d)) = buffer d
  /\ 0 <= pos (snd (run op d)) <= size (buffer (snd (run op d)))
  /\ pos d <= pos (snd (run op d)).
Proof.
  intros Hr. pose proof (reachable_valid d Hr) as Hv.
  destruct (run_step op d Hv) as [Hb Hp]. destruct Hv as [Hp0 _].
  rewrite Hb. repeat split; lia.
Qed.

(** C10, at the buffer 00 00 00 00: the prefix is read and declares the
    length 0 with the cursor then at the end of the buffer, and neither
    the string read nor the byte-sequence read returns; both reach a
    subscript out of range, [&buffer[4]] on the four-byte buffer and, for
    the byte sequence, [&data[0]] on the empty target.  The byte-sequence
    read does so also when bytes follow the prefix (00 00 00 00 ff), where
    the string read returns the empty string with the cursor at 4. *)
Theorem zero_length_read_undefined :
  let d := create [Byte.x00; Byte.x00; Byte.x00; Byte.x00] in
  let d' := create [Byte.x00; Byte.x00; Byte.x00; Byte.x00; Byte.xff] in
  extract UInt32 0 d = Outcome Returned 0 (mk (buffer d) 4)
  /\ st (extract_string "" d) = Undefined
  /\ st (extract_bytes [] d) = Undefined
  /\ st (extract_bytes [] d') = Undefined
  /\ extract_string "" d' = Outcome Returned EmptyString (mk (buffer d') 4).
Proof.
  intros d d'. repeat split; vm_compute; reflexivity.
Qed.

End Cursor.

(** ** What the serializer appends *)

Lemma length_list_byte_of_string s :
  List.length (list_byte_of_string s) = String.length s.
Proof.
  unfold list_byte_of_string. rewrite length_map.
  induction s as [| c s IH]; simpl; [reflexivity | now rewrite IH].
Qed.

Lemma data_insert_vector T value s :
  serializer.data (serializer.insert_vector T value s)
  = serializer.data s
    ++ le_split 4 (uint32_t (Z.of_nat (List.length value)))
    ++ flat_map (le_split (sizeof T)) value.
Proof.
  unfold serializer.insert_vector.
  generalize (uint32_t (Z.of_nat (List.length value))) as n. intros n.
  assert (H : forall s0,
             serializer.data
               (fold_left (fun self element => serializer.insert T element self)
                          value s0)
             = serializer.data s0 ++ flat_map (le_split (sizeof T)) value).
  { induction value as [| x xs IH]; intros s0; simpl.
    - now rewrite app_nil_r.
    - rewrite IH. simpl. now rewrite <- app_assoc. }
  rewrite H. simpl. now rewrite <- app_assoc.
Qed.

Lemma size_flat_map_le_split n value :
  size (flat_map (le_split n) value)
  = Z.of_nat (List.length value) * Z.of_nat n.
Proof.
  unfold size. induction value as [| x xs IH]; [reflexivity|].
  cbn [flat_map List.length].
  rewrite length_app, length_le_split, Nat2Z.inj_add, IH, Nat2Z.inj_succ.
  lia.
Qed.

Lemma size_insert_string value s :
  size (serializer.data (serializer.insert_string value s))
  = size (serializer.data s) + 4
    + uint32_t (Z.of_nat (String.length value)).
Proof.
  unfold serializer.insert_string, serializer.insert. cbn [serializer.data].
  rewrite !size_app. unfold size at 2 3.
  rewrite length_le_split, length_firstn, length_list_byte_of_string.
  assert (0 <= uint32_t (Z.of_nat (String.length value))
          <= Z.of_nat (String.length value)).
  { unfold uint32_t. split.
    - apply Z.mod_pos_bound. lia.
    - apply Z.mod_le; lia. }
  simpl sizeof. lia.
Qed.

(** C6, as amended: a fixed-width write appends exactly sizeof(T) bytes; a
    string write appends exactly 4 + L bytes when the length L of the
    string is below 2^32; a sequence write of N elements of width W appends
    exactly 4 + N * W bytes; and each leaves the bytes written before in
    place. *)
Theorem length_accounting s :
  (forall T v,
      exists tail,
        serializer.data (serializer.insert T v s) = serializer.data s ++ tail
        /\ size tail = Z.of_nat (sizeof T))
  /\ (forall str,
         Z.of_nat (String.length str) < 2 ^ 32 ->
         exists tail,
           serializer.data (serializer.insert_string str s)
           = serializer.data s ++ tail
           /\ size tail = 4 + Z.of_nat (String.length str))
  /\ (forall T value,
         exists tail,
           serializer.data (serializer.insert_vector T value s)
           = serializer.data s ++ tail
           /\ size tail
              = 4 + Z.of_nat (List.length value) * Z.of_nat (sizeof T)).
Proof.
  repeat split.
  - intros T v. exists (le_split (sizeof T) v). split; [reflexivity|].
    unfold size. now rewrite length_le_split.
  - intros str Hlen.
    pose proof (size_insert_string str s) as Hsz.
    rewrite uint32_t_small in Hsz by lia.
    unfold serializer.insert_string, serializer.insert in *.
    cbn [serializer.data] in *. rewrite <- app_assoc in *.
    eexists. split; [reflexivity|].
    rewrite size_app in Hsz. lia.
  - intros T value. rewrite data_insert_vector.
    eexists. split; [reflexivity|].
    rewrite size_app, size_flat_map_le_split. unfold size.
    rewrite length_le_split. lia.
Qed.

(** ** Round trips *)

Section RoundTrip.
Import deserializer.

Lemma valid_create buf : size buf <= PTRDIFF_MAX -> valid (create buf).
Proof.
  intros H. unfold valid, create. cbn [pos buffer].
  pose proof (size_nonneg buf). lia.
Qed.

(** C2: decoding the buffer that holds one encoded fixed-width value
    gives back the same object representation and leaves the cursor at
    sizeof(T). *)
Theorem fixed_round_trip T v data :
  representable T v ->
  let buf := serializer.get_data
               (serializer.insert T v (serializer.create 0)) in
  extract T data (create buf)
  = Outcome Returned v (mk buf (Z.of_nat (sizeof T)))
  /\ get_pos (self (extract T data (create buf))) = Z.of_nat (sizeof T).
Proof.
  intros Hv buf.
  assert (Hbuf : buf = le_split (sizeof T) v) by reflexivity.
  assert (Hsz : size buf = Z.of_nat (sizeof T)).
  { rewrite Hbuf. unfold size. now rewrite length_le_split. }
  pose proof (sizeof_small T) as Hs.
  assert (Hvalid : valid (create buf)).
  { apply valid_create. unfold PTRDIFF_MAX. lia. }
  assert (E : extract T data (create buf)
              = Outcome Returned v (mk buf (Z.of_nat (sizeof T)))).
  { rewrite extract_returns by (assumption || (cbn [create pos buffer]; lia)).
    unfold remaining. cbn [create pos buffer].
    change (Z.to_nat 0) with 0%nat. cbn [skipn].
    rewrite firstn_all2 by (unfold size in Hsz; lia).
    rewrite Hbuf at 1. rewrite le_combine_split.
    rewrite Z.mod_small by exact Hv. reflexivity. }
  rewrite E. split; reflexivity.
Qed.

(** Reading back a length prefix followed by at least that many bytes. *)
Lemma extract_sized_prefixed at_defined n payload data :
  0 < n < 2 ^ 32 ->
  n <= size payload ->
  size payload <= PTRDIFF_MAX - 4 ->
  at_defined (resize data (Z.to_nat n)) 0 = true ->
  extract_sized at_defined data (create (le_split 4 n ++ payload))
  = Outcome Returned (firstn (Z.to_nat n) payload)
            (mk (le_split 4 n ++ payload) (4 + n)).
Proof.
  intros Hn Hle Hmax Hat.
  set (buf := le_split 4 n ++ payload).
  assert (Hsz : size buf = 4 + size payload).
  { unfold buf. rewrite size_app. unfold size.
    rewrite length_le_split. lia. }
  assert (Hvalid : valid (create buf)) by (apply valid_create; lia).
  assert (Hpeek : peek_uint32 (create buf) = n).
  { unfold peek_uint32, remaining, buf. cbn [create pos buffer].
    change (Z.to_nat 0) with 0%nat. cbn [skipn].
    rewrite firstn_app, length_le_split.
    rewrite firstn_all2 by (rewrite length_le_split; lia).
    cbn [Nat.sub firstn]. rewrite app_nil_r, le_combine_split.
    apply Z.mod_small. simpl. lia. }
  rewrite extract_sized_returns
    by (rewrite ?Hpeek; cbn [create pos buffer]; (assumption || lia)).
  rewrite Hpeek. cbn [create pos buffer]. reflexivity.
Qed.

(** C3, at the empty string: its encoding is the four bytes 00 00 00 00,
    and the string read of that buffer does not return; with the prefix
    read and the length 0 it forms [&buffer[4]], a subscript out of the
    range of the four-byte buffer. *)
Theorem empty_string_round_trip_undefined :
  let buf := serializer.get_data
               (serializer.insert_string "" (serializer.create 0)) in
  buf = [Byte.x00; Byte.x00; Byte.x00; Byte.x00]
  /\ forall data,
      extract_string data (create buf)
      = Outcome Undefined EmptyString (mk buf 4).
Proof.
  intros buf. split; [reflexivity|]. intros data.
  assert (Hv : valid (create buf)) by (apply valid_create; vm_compute;
                                        discriminate).
  unfold extract_string.
  rewrite extract_sized_string_undefined by (assumption || reflexivity).
  reflexivity.
Qed.

Lemma flat_map_le_split_1 value :
  flat_map (le_split (sizeof UInt8)) value = map byte.of_Z value.
Proof.
  induction value as [| x xs IH]; [reflexivity|].
  cbn [flat_map map]. rewrite IH. reflexivity.
Qed.

Lemma map_unsigned_of_Z value :
  Forall (representable UInt8) value ->
  map byte.unsigned (map byte.of_Z value) = value.
Proof.
  induction 1 as [| x xs Hx _ IH]; simpl; [reflexivity|].
  rewrite IH, byte.unsigned_of_Z. unfold byte.wrap.
  rewrite Z.mod_small by exact Hx. reflexivity.
Qed.

(** C4, as amended: decoding the buffer that holds one encoded sequence
    of at least one and fewer than 2^32 bytes ([uint8_t] elements, the one
    element type the decoder has a sequence read for) gives back an equal
    sequence. *)
Theorem byte_sequence_round_trip value data :
  Forall (representable UInt8) value ->
  value <> [] ->
  Z.of_nat (List.length value) < 2 ^ 32 ->
  let buf := serializer.get_data
               (serializer.insert_vector UInt8 value (serializer.create 0)) in
  extract_vector UInt8 data (create buf)
  = Outcome Returned (Elements value)
            (mk buf (4 + Z.of_nat (List.length value))).
Proof.
  intros Hrep Hne Hlen buf.
  assert (Hpos : 0 < Z.of_nat (List.length value)).
  { destruct value; [congruence | cbn [List.length]; lia]. }
  assert (Hbuf : buf = le_split 4 (Z.of_nat (List.length value))
                       ++ map byte.of_Z value).
  { unfold buf, serializer.get_data. rewrite data_insert_vector.
    rewrite uint32_t_small by lia. rewrite flat_map_le_split_1.
    reflexivity. }
  rewrite Hbuf. unfold extract_vector, extract_bytes.
  assert (Hsz : size (map byte.of_Z value) = Z.of_nat (List.length value)).
  { unfold size. now rewrite length_map. }
  rewrite extract_sized_prefixed.
  - cbn [st out self]. rewrite Nat2Z.id.
    rewrite firstn_all2 by (rewrite length_map; lia).
    rewrite map_unsigned_of_Z by exact Hrep. reflexivity.
  - lia.
  - rewrite Hsz. lia.
  - rewrite Hsz. unfold PTRDIFF_MAX. lia.
  - rewrite vector_at_defined_resize, Nat2Z.id.
    destruct value; [congruence | reflexivity].
Qed.

End RoundTrip.

(** ** The scenario of the specification *)

Section Scenario.
Import deserializer.

(** C9: encoding the 32-bit value 42 and then the string "hi" gives a
    buffer of 10 bytes; reading a 32-bit value and then a string from it
    gives 42 and "hi"; and every further read, of any arithmetic type, of
    a string or of a byte sequence, throws BufferOverflow. *)
Theorem scenario :
  let buf := serializer.get_data
               (serializer.insert_string "hi"
                  (serializer.insert UInt32 42 (serializer.create 0))) in
  size buf = 10
  /\ forall v0 str0,
      let r1 := extract UInt32 v0 (create buf) in
      let r2 := extract_string str0 (self r1) in
      r1 = Outcome Returned 42 (mk buf 4)
      /\ r2 = Outcome Returned "hi"%string (mk buf 10)
      /\ (forall T v, st (extract T v (self r2)) = Thrown BufferOverflow)
      /\ (forall str,
             st (extract_string str (self r2)) = Thrown BufferOverflow)
      /\ (forall vec,
             st (extract_bytes vec (self r2)) = Thrown BufferOverflow).
Proof.
  intros buf. split; [reflexivity|]. intros v0 str0 r1 r2.
  assert (Hsz : size buf = 10) by reflexivity.
  assert (P0 : le_combine (firstn 4 (remaining (create buf))) = 42)
    by reflexivity.
  assert (P1 : peek_uint32 (mk buf 4) = 2) by reflexivity.
  assert (P2 : string_of_list_byte
                 (firstn (Z.to_nat 2) (skipn (Z.to_nat (4 + 4)) buf))
               = "hi"%string) by reflexivity.
  clearbody buf.
  assert (V0 : valid (create buf)).
  { apply valid_create. rewrite Hsz. unfold PTRDIFF_MAX. lia. }
  assert (E1 : r1 = Outcome Returned 42 (mk buf 4)).
  { unfold r1. rewrite extract_returns
      by (assumption || (cbn [create pos buffer sizeof]; lia)).
    change (sizeof UInt32) with 4%nat. rewrite P0. reflexivity. }
  assert (V1 : valid (mk buf 4)).
  { unfold valid. cbn [pos buffer]. rewrite Hsz. unfold PTRDIFF_MAX. lia. }
  assert (E2 : r2 = Outcome Returned "hi"%string (mk buf 10)).
  { unfold r2, extract_string. rewrite E1. cbn [self].
    rewrite extract_sized_string_returns
      by (assumption || (rewrite ?P1; cbn [pos buffer]; lia)).
    rewrite P1. cbn [st out self pos buffer]. rewrite P2. reflexivity. }
  assert (V2 : valid (mk buf 10)).
  { unfold valid. cbn [pos buffer]. rewrite Hsz. unfold PTRDIFF_MAX. lia. }
  split; [exact E1|]. split; [exact E2|]. rewrite E2. cbn [self].
  repeat split.
  - intros T v. pose proof (sizeof_small T).
    rewrite extract_throws by (assumption || (cbn [pos buffer]; lia)).
    reflexivity.
  - intros str. unfold extract_string.
    rewrite extract_sized_no_prefix
      by (assumption || (cbn [pos buffer]; lia)).
    reflexivity.
  - intros vec. unfold extract_bytes.
    rewrite extract_sized_no_prefix
      by (assumption || (cbn [pos buffer]; lia)).
    reflexivity.
Qed.

End Scenario.

(** ** The hex renderer *)

Lemma string_app_nil_r s : (s ++ "")%string = s.
Proof. induction s as [| c s IH]; simpl; [|rewrite IH]; reflexivity. Qed.

Lemma string_app_assoc s1 s2 s3 :
  ((s1 ++ s2) ++ s3)%string = (s1 ++ (s2 ++ s3))%string.
Proof. induction s1 as [| c s1 IH]; simpl; [|rewrite IH]; reflexivity. Qed.

Lemma length_string_app s1 s2 :
  String.length (s1 ++ s2) = (String.length s1 + String.length s2)%nat.
Proof. induction s1 as [| c s1 IH]; simpl; [|rewrite IH]; reflexivity. Qed.

Lemma int32_t_small z : - 2 ^ 31 <= z <= INT32_MAX -> int32_t z = z.
Proof.
  unfold int32_t, INT32_MAX. intros H. rewrite Z.mod_small by lia. lia.
Qed.

(** Every byte is rendered as two lower-case hex digits. *)
Lemma put_byte_pair b :
  String.length (put_byte b) = 2%nat
  /\ forallb is_lower_hex (list_ascii_of_string (put_byte b)) = true.
Proof. destruct b; split; vm_compute; reflexivity. Qed.

Lemma length_hex_pairs l :
  String.length (hex_pairs l) = (2 * List.length l)%nat.
Proof.
  induction l as [| b l IH]; [reflexivity|].
  cbn [hex_pairs List.length].
  rewrite length_string_app, IH, (proj1 (put_byte_pair b)). lia.
Qed.

Lemma hex_pairs_app l1 l2 :
  hex_pairs (l1 ++ l2) = (hex_pairs l1 ++ hex_pairs l2)%string.
Proof.
  induction l1 as [| b l1 IH]; [reflexivity|].
  cbn [app hex_pairs]. rewrite IH, string_app_assoc. reflexivity.
Qed.

Lemma bytes_to_hex_loop_nil i count ss : bytes_to_hex_loop [] i count ss = ss.
Proof. cbn [bytes_to_hex_loop]. destruct (_ <? _); reflexivity. Qed.

(** While the counter stays inside [int32_t] and below [count], the loop
    renders the bytes one after the other. *)
Lemma bytes_to_hex_loop_prefix pre :
  forall rest i count ss,
    0 <= i ->
    i + size pre <= INT32_MAX ->
    i + size pre <= count ->
    bytes_to_hex_loop (pre ++ rest) i count ss
    = bytes_to_hex_loop rest (i + size pre) count (ss ++ hex_pairs pre).
Proof.
  induction pre as [| b pre IH]; intros rest i count ss Hi Hmax Hcount.
  - cbn [app hex_pairs]. unfold size. cbn [List.length].
    rewrite Z.add_0_r, string_app_nil_r. reflexivity.
  - assert (Hsz : size (b :: pre) = 1 + size pre).
    { unfold size. cbn [List.length]. lia. }
    pose proof (size_nonneg pre) as Hpre.
    rewrite Hsz in *. cbn [app bytes_to_hex_loop hex_pairs].
    rewrite size_t_small by (unfold SIZE_MAX, INT32_MAX in *; lia).
    destruct (Z.ltb_spec i count) as [_ | Hge]; [|lia].
    rewrite int32_t_small by (unfold INT32_MAX in *; lia).
    rewrite IH by lia.
    rewrite string_app_assoc. f_equal. lia.
Qed.

(** For at most [INT32_MAX] bytes the renderer gives one pair of
    lower-case hex digits per byte, in order and with nothing between. *)
Lemma bytes_to_hex_pairs in_ :
  size in_ <= INT32_MAX ->
  bytes_to_hex in_ (size in_) = hex_pairs in_.
Proof.
  intros H. unfold bytes_to_hex.
  rewrite <- (app_nil_r in_) at 1.
  rewrite bytes_to_hex_loop_prefix by lia.
  apply bytes_to_hex_loop_nil.
Qed.

(** Past [INT32_MAX] bytes the counter wraps to a negative value, whose
    conversion to [size_t] ends the loop: the bytes behind index
    [INT32_MAX] are not rendered. *)
Lemma bytes_to_hex_wraps pre b1 b2 :
  size pre = INT32_MAX ->
  bytes_to_hex (pre ++ [b1; b2]) (size (pre ++ [b1; b2]))
  = hex_pairs (pre ++ [b1]).
Proof.
  intros H. unfold bytes_to_hex.
  assert (Hsz : size (pre ++ [b1; b2]) = INT32_MAX + 2).
  { rewrite size_app, H. reflexivity. }
  rewrite Hsz.
  rewrite bytes_to_hex_loop_prefix by (rewrite ?H; unfold INT32_MAX; lia).
  rewrite H. cbn [bytes_to_hex_loop].
  change (size_t (0 + INT32_MAX) <? INT32_MAX + 2) with true. cbv iota.
  change (size_t (int32_t (0 + INT32_MAX + 1)) <? INT32_MAX + 2) with false.
  cbv iota. rewrite hex_pairs_app. cbn [hex_pairs append].
  rewrite string_app_nil_r. reflexivity.
Qed.

(** C8, at a sequence of 2^31 + 1 bytes: the renderer gives the pairs of
    the first 2^31 bytes only, two characters short of two per byte. *)
Theorem bytes_to_hex_int32_counter :
  let in_ := repeat Byte.x00 (Z.to_nat INT32_MAX) ++ [Byte.x00; Byte.xff] in
  bytes_to_hex in_ (size in_)
  = hex_pairs (repeat Byte.x00 (Z.to_nat INT32_MAX) ++ [Byte.x00])
  /\ Z.of_nat (String.length (bytes_to_hex in_ (size in_))) = 2 * size in_ - 2.
Proof.
  intros in_. unfold in_.
  generalize (Z2Nat.id INT32_MAX ltac:(unfold INT32_MAX; lia)).
  generalize (Z.to_nat INT32_MAX) as n. intros n Hn.
  assert (Hpre : size (repeat Byte.x00 n) = INT32_MAX).
  { unfold size. rewrite repeat_length. exact Hn. }
  rewrite bytes_to_hex_wraps by exact Hpre. split; [reflexivity|].
  rewrite length_hex_pairs, !size_app, Hpre.
  rewrite length_app, repeat_length. cbn [List.length]. unfold size.
  cbn [List.length]. lia.
Qed.

(** ** Where the specification and the code part *)

Section Divergences.
Import deserializer.

(** C1, as stated, fails: the buffer 05 00 00 00 declares five bytes and
    holds none.  The length prefix is read, the string read throws
    BufferOverflow, and the cursor stays at 4, not at its value 0 from
    before the call. *)
Lemma declared_length_overflow_moves_cursor :
  let d := create [Byte.x05; Byte.x00; Byte.x00; Byte.x00] in
  st (extract UInt32 0 d) = Returned
  /\ size (buffer d)
     < pos (self (extract UInt32 0 d)) + out (extract UInt32 0 d)
  /\ st (extract_string "" d) = Thrown BufferOverflow
  /\ pos (self (extract_string "" d)) = 4
  /\ pos (self (extract_string "" d)) <> pos d.
Proof.
  intros d. repeat split; vm_compute; (reflexivity || discriminate).
Qed.

(** A sequence is written with its count modulo 2^32 in front of all its
    elements; where that count is not 0, the read gives back that many
    elements from the front. *)
Lemma byte_sequence_count_wraps value data :
  0 < uint32_t (Z.of_nat (List.length value)) ->
  Z.of_nat (List.length value) <= PTRDIFF_MAX - 4 ->
  extract_vector UInt8 data
    (create (serializer.get_data
               (serializer.insert_vector UInt8 value (serializer.create 0))))
  = Outcome Returned
            (Elements
               (map byte.unsigned
                    (firstn (Z.to_nat (uint32_t (Z.of_nat (List.length value))))
                            (map byte.of_Z value))))
            (mk (le_split 4 (uint32_t (Z.of_nat (List.length value)))
                 ++ map byte.of_Z value)
                (4 + uint32_t (Z.of_nat (List.length value)))).
Proof.
  intros Hpos Hmax.
  unfold serializer.get_data. rewrite data_insert_vector.
  rewrite flat_map_le_split_1. cbn [serializer.create serializer.data app].
  assert (Hn : uint32_t (Z.of_nat (List.length value)) < 2 ^ 32
               /\ uint32_t (Z.of_nat (List.length value))
                  <= Z.of_nat (List.length value)).
  { unfold uint32_t. split.
    - apply Z.mod_pos_bound. lia.
    - apply Z.mod_le; lia. }
  set (n := uint32_t (Z.of_nat (List.length value))) in *. clearbody n.
  unfold extract_vector, extract_bytes.
  rewrite extract_sized_prefixed.
  - reflexivity.
  - lia.
  - unfold size. rewrite length_map. lia.
  - unfold size. rewrite length_map. lia.
  - rewrite vector_at_defined_resize.
    destruct (Z.to_nat n) eqn:E; [lia | reflexivity].
Qed.

(** C4, as stated, fails.  For 32-bit elements [d >> data] is the
    template at the type of the vector itself: on the four bytes that
    encode the empty sequence it throws BufferOverflow.  A sequence of
    2^32 + 1 bytes is encoded with the count 1 and reads back as a
    sequence of one byte.  And the read of the encoded empty byte sequence
    does not return: it forms [&data[0]] on the empty target. *)
Lemma sequence_round_trip_fails :
  st (extract_vector UInt32 []
        (create (serializer.get_data
                   (serializer.insert_vector UInt32 []
                      (serializer.create 0)))))
  = Thrown BufferOverflow
  /\ (let value := repeat 0 (Z.to_nat (2 ^ 32 + 1)) in
      let r := extract_vector UInt8 []
                 (create (serializer.get_data
                            (serializer.insert_vector UInt8 value
                               (serializer.create 0)))) in
      st r = Returned
      /\ out r = Elements [0]
      /\ Elements value <> Elements [0])
  /\ st (extract_vector UInt8 []
           (create (serializer.get_data
                      (serializer.insert_vector UInt8 []
                         (serializer.create 0)))))
     = Undefined.
Proof.
  split; [vm_compute; reflexivity|]. split; [|vm_compute; reflexivity].
  generalize (Z2Nat.id (2 ^ 32 + 1) ltac:(lia)).
  generalize (Z.to_nat (2 ^ 32 + 1)) as n. intros n Hn value r.
  assert (Hlen : Z.of_nat (List.length value) = 2 ^ 32 + 1).
  { unfold value. rewrite repeat_length. exact Hn. }
  assert (Hwrap : uint32_t (Z.of_nat (List.length value)) = 1).
  { rewrite Hlen. reflexivity. }
  assert (E : r = Outcome Returned (Elements [0])
                          (mk (le_split 4 1 ++ map byte.of_Z value) (4 + 1))).
  { unfold r. rewrite byte_sequence_count_wraps.
    - rewrite Hwrap. unfold value. destruct n as [| n]; [discriminate Hn|].
      reflexivity.
    - rewrite Hwrap. lia.
    - rewrite Hlen. unfold PTRDIFF_MAX. lia. }
  rewrite E. split; [reflexivity|]. split; [reflexivity|].
  intros H. injection H as H. apply (f_equal (@List.length Z)) in H.
  apply (f_equal Z.of_nat) in H. rewrite Hlen in H. discriminate H.
Qed.

Lemma length_string_of_list_ascii l :
  String.length (string_of_list_ascii l) = List.length l.
Proof. induction l as [| c l IH]; simpl; [|rewrite IH]; reflexivity. Qed.

(** C6, as stated, fails: for a string of 2^32 bytes the length prefix
    is 0 and no content byte is appended, so the buffer grows by 4 bytes,
    not by 4 + 2^32. *)
Lemma string_growth_truncated :
  let str := string_of_list_ascii (repeat "a"%char (Z.to_nat (2 ^ 32))) in
  let s := serializer.create 0 in
  Z.of_nat (String.length str) = 2 ^ 32
  /\ size (serializer.data (serializer.insert_string str s))
     = size (serializer.data s) + 4
  /\ size (serializer.data (serializer.insert_string str s))
     <> size (serializer.data s) + (4 + Z.of_nat (String.length str)).
Proof.
  generalize (Z2Nat.id (2 ^ 32) ltac:(lia)).
  generalize (Z.to_nat (2 ^ 32)) as n. intros n Hn str s.
  assert (Hlen : Z.of_nat (String.length str) = 2 ^ 32).
  { unfold str. rewrite length_string_of_list_ascii, repeat_length.
    exact Hn. }
  assert (Hsz : size (serializer.data (serializer.insert_string str s))
                = size (serializer.data s) + 4).
  { rewrite size_insert_string, Hlen.
    change (uint32_t (2 ^ 32)) with 0. lia. }
  split; [exact Hlen|]. split; [exact Hsz|].
  rewrite Hsz, Hlen. lia.
Qed.

End Divergences.

(** ** The theorems at concrete inputs *)

Section Instances.
Import deserializer.

Lemma declared_length_overflow_witness :
  let d := create [Byte.x05; Byte.x00; Byte.x00; Byte.x00] in
  (forall data,
      extract_string data d
      = Outcome (Thrown BufferOverflow) data (mk (buffer d) (pos d + 4)))
  /\ (forall data,
      extract_bytes data d
      = Outcome (Thrown BufferOverflow) data (mk (buffer d) (pos d + 4))).
Proof.
  intros d. apply (declared_length_overflow d).
  - apply valid_create. vm_compute. discriminate.
  - reflexivity.
  - vm_compute. reflexivity.
Defined.

Lemma truncation_detected_witness :
  st (extract UInt32 0 (create [Byte.x01; Byte.x02]))
  = Thrown BufferOverflow
  /\ (let d := create [Byte.x05; Byte.x00; Byte.x00; Byte.x00; Byte.x41] in
      extract UInt32 0 d
      = Outcome Returned (peek_uint32 d) (mk (buffer d) (pos d + 4))
      /\ forall str vec,
          st (extract_string str d) = Thrown BufferOverflow
          /\ st (extract_bytes vec d) = Thrown BufferOverflow).
Proof.
  split.
  - apply (proj1 truncation_detected). vm_compute. reflexivity.
  - intros d. apply (proj2 truncation_detected d).
    + apply valid_create. vm_compute. discriminate.
    + vm_compute. discriminate.
    + vm_compute. reflexivity.
Defined.

Lemma cursor_invariant_witness :
  let d := snd (run (ReadString "")
                    (create [Byte.x05; Byte.x00; Byte.x00; Byte.x00])) in
  let op := ReadFixed UInt8 0 in
  buffer (snd (run op d)) = buffer d
  /\ 0 <= pos (snd (run op d)) <= size (buffer (snd (run op d)))
  /\ pos d <= pos (snd (run op d)).
Proof.
  intros d op. apply (cursor_invariant d op).
  apply reachable_run, reachable_create. vm_compute. discriminate.
Defined.

Lemma fixed_round_trip_witness :
  let buf := serializer.get_data
               (serializer.insert UInt32 42 (serializer.create 0)) in
  extract UInt32 0 (create buf)
  = Outcome Returned 42 (mk buf (Z.of_nat (sizeof UInt32)))
  /\ get_pos (self (extract UInt32 0 (create buf)))
     = Z.of_nat (sizeof UInt32).
Proof.
  apply (fixed_round_trip UInt32 42 0).
  unfold representable. simpl. lia.
Defined.

Lemma byte_sequence_round_trip_witness :
  let buf := serializer.get_data
               (serializer.insert_vector UInt8 [1; 42; 255]
                  (serializer.create 0)) in
  extract_vector UInt8 [] (create buf)
  = Outcome Returned (Elements [1; 42; 255])
            (mk buf (4 + Z.of_nat (List.length [1; 42; 255]))).
Proof.
  apply (byte_sequence_round_trip [1; 42; 255] []).
  - repeat constructor; unfold representable; simpl; lia.
  - discriminate.
  - simpl. lia.
Defined.

Lemma length_accounting_witness :
  exists tail,
    serializer.data (serializer.insert_string "hi" (serializer.create 0))
    = serializer.data (serializer.create 0) ++ tail
    /\ size tail = 4 + Z.of_nat (String.length "hi").
Proof.
  apply (proj1 (proj2 (length_accounting (serializer.create 0)))).
  simpl. lia.
Defined.

End Instances.


(** * Further properties of the decoder *)

Section ReadOutcomes.
Import deserializer.

(** A fixed-width read for which too few bytes remain throws
    BufferOverflow and changes neither the cursor nor its target. *)
Theorem fixed_read_fails_clean T data d :
  valid d ->
  representable T data ->
  size (buffer d) < pos d + Z.of_nat (sizeof T) ->
  extract T data d = Outcome (Thrown BufferOverflow) data d.
Proof.
  intros Hv Hrep Hshort.
  rewrite extract_throws by assumption.
  unfold representable in Hrep. rewrite Z.mod_small by exact Hrep.
  reflexivity.
Qed.

Lemma extract_sized_thrown_iff at_defined data d :
  valid d ->
  st (extract_sized at_defined data d) = Thrown BufferOverflow
  <-> size (buffer d) < pos d + 4 + peek_uint32 d.
Proof.
  intros Hv. pose proof (peek_uint32_range d) as Hr.
  destruct (Z_le_gt_dec (pos d + 4 + peek_uint32 d) (size (buffer d)))
    as [Hfit | Hover].
  - rewrite extract_sized_fits by assumption.
    split; [|lia]. destruct (_ && _); discriminate.
  - split; [lia|]. intros _.
    destruct (Z_le_gt_dec (pos d + 4) (size (buffer d))) as [H4 | H4].
    + rewrite extract_sized_short by (assumption || lia). reflexivity.
    + rewrite extract_sized_no_prefix by (assumption || lia). reflexivity.
Qed.

Lemma extract_sized_returned_iff at_defined data d :
  valid d ->
  st (extract_sized at_defined data d) = Returned
  <-> pos d + 4 + peek_uint32 d <= size (buffer d)
      /\ at_defined (resize data (Z.to_nat (peek_uint32 d))) 0 = true
      /\ pos d + 4 < size (buffer d).
Proof.
  intros Hv. pose proof (peek_uint32_range d) as Hr.
  pose proof Hv as [Hp Hs].
  destruct (Z_le_gt_dec (pos d + 4 + peek_uint32 d) (size (buffer d)))
    as [Hfit | Hover].
  - rewrite extract_sized_fits by assumption.
    destruct (at_defined _ 0); cbn [andb].
    + destruct (vector_at_defined (buffer d) (pos d + 4)) eqn:E; cbn [st].
      * apply vector_at_defined_iff in E. intuition lia.
      * split; [discriminate|]. intros (_ & _ & Hin).
        assert (vector_at_defined (buffer d) (pos d + 4) = true)
          by (apply vector_at_defined_iff; lia).
        congruence.
    + cbn [st]. split; [discriminate|]. intros (_ & Hat & _).
      discriminate Hat.
  - split; [|lia]. intros Hst. exfalso.
    destruct (Z_le_gt_dec (pos d + 4) (size (buffer d))) as [H4 | H4].
    + rewrite extract_sized_short in Hst by (assumption || lia).
      discriminate Hst.
    + rewrite extract_sized_no_prefix in Hst by (assumption || lia).
      discriminate Hst.
Qed.

(** How a read ends, in every valid state.  A fixed-width read returns
    exactly when sizeof(T) bytes remain.  A string read and a byte-sequence
    read throw BufferOverflow exactly when the four bytes of the prefix and
    the length they declare do not remain; a string read returns exactly
    when they do and at least one byte follows the prefix in the buffer; a
    byte-sequence read returns exactly when they do and the declared count
    is not 0. *)
Theorem reads_return_iff d :
  valid d ->
  (forall T data,
      st (extract T data d) = Returned
      <-> pos d + Z.of_nat (sizeof T) <= size (buffer d))
  /\ (forall data,
         st (extract_string data d) = Thrown BufferOverflow
         <-> size (buffer d) < pos d + 4 + peek_uint32 d)
  /\ (forall data,
         st (extract_bytes data d) = Thrown BufferOverflow
         <-> size (buffer d) < pos d + 4 + peek_uint32 d)
  /\ (forall data,
         st (extract_string data d) = Returned
         <-> pos d + 4 + peek_uint32 d <= size (buffer d)
             /\ pos d + 4 < size (buffer d))
  /\ (forall data,
         st (extract_bytes data d) = Returned
         <-> pos d + 4 + peek_uint32 d <= size (buffer d)
             /\ 0 < peek_uint32 d).
Proof.
  intros Hv. pose proof (peek_uint32_range d) as Hr.
  split; [|split; [|split; [|split]]].
  - intros T data. split.
    + apply extract_returned_inv, Hv.
    + intros Hfit. rewrite extract_returns by assumption. reflexivity.
  - intros data. unfold extract_string. cbn [st].
    apply extract_sized_thrown_iff, Hv.
  - intros data. apply extract_sized_thrown_iff, Hv.
  - intros data. unfold extract_string. cbn [st].
    rewrite extract_sized_returned_iff by exact Hv.
    rewrite string_at_defined_0. tauto.
  - intros data. unfold extract_bytes.
    rewrite extract_sized_returned_iff by exact Hv.
    rewrite vector_at_defined_resize.
    destruct (Z.to_nat (peek_uint32 d)) eqn:E; cbn [Nat.eqb negb].
    + split; [intros (_ & Hf & _); discriminate Hf | lia].
    + split; [lia|]. intros [Hfit Hpos]. repeat split; lia.
Qed.

(** With fewer than four bytes behind the cursor, a string read and a
    byte-sequence read throw BufferOverflow on the length prefix; cursor
    and target stay as they were. *)
Theorem sized_read_without_prefix d :
  valid d ->
  size (buffer d) < pos d + 4 ->
  (forall data,
      extract_string data d = Outcome (Thrown BufferOverflow) data d)
  /\ (forall data,
      extract_bytes data d = Outcome (Thrown BufferOverflow) data d).
Proof.
  intros Hv Hshort. split; intros data.
  - unfold extract_string. rewrite extract_sized_no_prefix by assumption.
    cbn [st out self]. rewrite string_of_list_byte_of_string. reflexivity.
  - apply extract_sized_no_prefix; assumption.
Qed.

Lemma length_string_of_list_byte l :
  String.length (string_of_list_byte l) = List.length l.
Proof.
  unfold string_of_list_byte.
  rewrite length_string_of_list_ascii. apply length_map.
Qed.

(** A string read for which the prefix and the declared bytes remain, and
    at least one byte follows the prefix, returns and replaces the target
    whatever it held before: the result is the declared number of bytes
    that follow the prefix, and the cursor ends behind them. *)
Theorem string_read_result d data :
  valid d ->
  pos d + 4 + peek_uint32 d <= size (buffer d) ->
  pos d + 4 < size (buffer d) ->
  extract_string data d
  = Outcome Returned
            (string_of_list_byte
               (firstn (Z.to_nat (peek_uint32 d))
                       (skipn (Z.to_nat (pos d + 4)) (buffer d))))
            (mk (buffer d) (pos d + 4 + peek_uint32 d))
  /\ Z.of_nat (String.length (out (extract_string data d))) = peek_uint32 d.
Proof.
  intros Hv Hfit Hin. pose proof (peek_uint32_range d) as Hr.
  pose proof Hv as [Hp Hs]. unfold extract_string.
  rewrite extract_sized_string_returns by assumption.
  cbn [st out self]. split; [reflexivity|].
  rewrite length_string_of_list_byte, length_firstn, length_skipn.
  unfold size in *. lia.
Qed.

(** With the cursor at the end of the buffer every read throws
    BufferOverflow and leaves the decoder as it is. *)
Theorem exhausted_buffer_rejects_reads d op :
  valid d ->
  pos d = size (buffer d) ->
  run op d = (Thrown BufferOverflow, d).
Proof.
  intros Hv Hend. destruct op as [T data | data | data]; cbn [run].
  - pose proof (sizeof_small T).
    rewrite extract_throws by (assumption || lia). reflexivity.
  - unfold extract_string.
    rewrite extract_sized_no_prefix by (assumption || lia). reflexivity.
  - unfold extract_bytes.
    rewrite extract_sized_no_prefix by (assumption || lia). reflexivity.
Qed.

Lemma extract_sized_keeps_buffer at_defined data d :
  buffer (self (extract_sized at_defined data d)) = buffer d.
Proof.
  unfold extract_sized, extract, extract_object, advance.
  destruct (_ >? _); cbn [st out self buffer pos]; [reflexivity|].
  destruct (_ >? _); [reflexivity|].
  destruct (_ && _); reflexivity.
Qed.

(** A read that ends undefined has read its length prefix and nothing
    more: the state it is in is the one a 32-bit read leads to. *)
Lemma undefined_read_state op d :
  valid d ->
  fst (run op d) = Undefined ->
  snd (run op d) = snd (run (ReadFixed UInt32 0) d).
Proof.
  intros Hv. pose proof (peek_uint32_range d) as Hr.
  assert (Hsized : forall at_defined data,
             st (extract_sized at_defined data d) = Undefined ->
             self (extract_sized at_defined data d)
             = self (extract UInt32 0 d)).
  { intros at_defined data.
    destruct (Z_le_gt_dec (pos d + 4 + peek_uint32 d) (size (buffer d)))
      as [Hfit | Hover].
    - rewrite extract_sized_fits by assumption.
      rewrite (extract_returns d Hv UInt32) by (simpl; lia).
      destruct (_ && _); [discriminate | reflexivity].
    - destruct (Z_le_gt_dec (pos d + 4) (size (buffer d))) as [H4 | H4].
      + rewrite extract_sized_short by (assumption || lia). discriminate.
      + rewrite extract_sized_no_prefix by (assumption || lia).
        discriminate. }
  destruct op as [T data | data | data]; cbn [run fst snd].
  - unfold extract, extract_object. destruct (_ >? _); discriminate.
  - unfold extract_string. cbn [st self]. apply Hsized.
  - apply Hsized.
Qed.

(** No read writes to the buffer, whatever the state of the decoder, so
    [str()] renders the same text before and after it. *)
Theorem reads_keep_buffer op d :
  buffer (snd (run op d)) = buffer d
  /\ deserializer_str (snd (run op d)) = deserializer_str d.
Proof.
  assert (H : buffer (snd (run op d)) = buffer d).
  { destruct op as [T data | data | data]; cbn [run snd].
    - unfold extract, extract_object, advance.
      destruct (_ >? _); reflexivity.
    - unfold extract_string. cbn [self]. apply extract_sized_keeps_buffer.
    - apply extract_sized_keeps_buffer. }
  split; [exact H|]. unfold deserializer_str. rewrite H. reflexivity.
Qed.

End ReadOutcomes.

(** * Values inside a longer stream *)

Section InStream.
Import deserializer.

Lemma remaining_behind pre rest :
  remaining (mk (pre ++ rest) (size pre)) = rest.
Proof.
  unfold remaining, size. cbn [pos buffer].
  rewrite Nat2Z.id, skipn_app, skipn_all, Nat.sub_diag. reflexivity.
Qed.

Lemma firstn_exact {A : Type} (l rest : list A) :
  firstn (List.length l) (l ++ rest) = l.
Proof.
  rewrite firstn_app, Nat.sub_diag, firstn_all. cbn [firstn].
  apply app_nil_r.
Qed.

(** Reading a fixed-width value that sits between [pre] and [post]. *)
Lemma extract_framed pre T v post data :
  representable T v ->
  size pre + Z.of_nat (sizeof T) + size post <= PTRDIFF_MAX ->
  extract T data (mk (pre ++ le_split (sizeof T) v ++ post) (size pre))
  = Outcome Returned v
            (mk (pre ++ le_split (sizeof T) v ++ post)
                (size pre + Z.of_nat (sizeof T))).
Proof.
  intros Hrep Hmax.
  set (buf := pre ++ le_split (sizeof T) v ++ post).
  assert (Hsz : size buf = size pre + Z.of_nat (sizeof T) + size post).
  { unfold buf. rewrite !size_app. unfold size at 2.
    rewrite length_le_split. lia. }
  pose proof (size_nonneg pre). pose proof (size_nonneg post).
  assert (Hv : valid (mk buf (size pre))).
  { unfold valid. cbn [pos buffer]. lia. }
  rewrite extract_returns by (assumption || (cbn [pos buffer]; lia)).
  unfold buf at 1. rewrite remaining_behind.
  rewrite <- (length_le_split (sizeof T) v) at 1.
  rewrite firstn_exact, le_combine_split.
  rewrite Z.mod_small by exact Hrep. reflexivity.
Qed.

(** Reading a length prefix and its payload between [pre] and [post],
    where both subscripts of the copy are in range. *)
Lemma extract_sized_framed at_defined pre payload post data :
  size payload < 2 ^ 32 ->
  size pre + 4 + size payload + size post <= PTRDIFF_MAX ->
  at_defined (resize data (List.length payload)) 0 = true ->
  0 < size payload + size post ->
  extract_sized at_defined data
    (mk (pre ++ le_split 4 (size payload) ++ payload ++ post) (size pre))
  = Outcome Returned payload
            (mk (pre ++ le_split 4 (size payload) ++ payload ++ post)
                (size pre + 4 + size payload)).
Proof.
  intros Hlen Hmax Hat Hin.
  set (n := size payload).
  set (buf := pre ++ le_split 4 n ++ payload ++ post).
  pose proof (size_nonneg pre). pose proof (size_nonneg post).
  pose proof (size_nonneg payload) as Hn. fold n in Hn, Hlen, Hmax, Hin.
  assert (Hsz : size buf = size pre + 4 + n + size post).
  { unfold buf. rewrite !size_app. unfold size at 2.
    rewrite length_le_split. fold n. lia. }
  assert (Hv : valid (mk buf (size pre))).
  { unfold valid. cbn [pos buffer]. lia. }
  assert (Hpeek : peek_uint32 (mk buf (size pre)) = n).
  { unfold peek_uint32, buf. rewrite remaining_behind.
    rewrite <- (length_le_split 4 n) at 1.
    rewrite firstn_exact, le_combine_split.
    apply Z.mod_small. simpl. lia. }
  assert (Hnat : Z.to_nat n = List.length payload).
  { unfold n, size. apply Nat2Z.id. }
  rewrite extract_sized_returns
    by (rewrite ?Hpeek, ?Hnat; cbn [pos buffer]; (assumption || lia)).
  rewrite Hpeek. cbn [pos buffer]. f_equal.
  assert (Hskip : skipn (Z.to_nat (size pre + 4)) buf = payload ++ post).
  { unfold buf. rewrite app_assoc.
    replace (Z.to_nat (size pre + 4))
      with (List.length (pre ++ le_split 4 n))
      by (rewrite length_app, length_le_split; unfold size; lia).
    rewrite skipn_app, skipn_all, Nat.sub_diag. reflexivity. }
  rewrite Hskip, Hnat. apply firstn_exact.
Qed.

(** A fixed-width value written at any point of a stream is read back
    from the offset it was written at, whatever was written before and
    whatever follows, and the cursor ends right behind it. *)
Theorem fixed_round_trip_in_stream s T v rest data :
  representable T v ->
  size (serializer.get_data s) + Z.of_nat (sizeof T) + size rest
  <= PTRDIFF_MAX ->
  let buf := serializer.get_data (serializer.insert T v s) ++ rest in
  extract T data (mk buf (size (serializer.get_data s)))
  = Outcome Returned v
            (mk buf (size (serializer.get_data s) + Z.of_nat (sizeof T))).
Proof.
  intros Hrep Hmax buf.
  unfold buf, serializer.get_data, serializer.insert in *.
  cbn [serializer.data]. rewrite <- app_assoc.
  apply extract_framed; assumption.
Qed.

Lemma data_insert_string value s :
  Z.of_nat (String.length value) < 2 ^ 32 ->
  serializer.data (serializer.insert_string value s)
  = serializer.data s
    ++ le_split 4 (size (list_byte_of_string value))
    ++ list_byte_of_string value.
Proof.
  intros Hlen. unfold serializer.insert_string, serializer.insert, size.
  cbn [serializer.data]. rewrite length_list_byte_of_string.
  rewrite uint32_t_small by lia. rewrite Nat2Z.id.
  rewrite firstn_all2 by (rewrite length_list_byte_of_string; lia).
  rewrite <- app_assoc. reflexivity.
Qed.

(** The same for a string of fewer than 2^32 bytes, unless the string is
    empty and nothing follows it in the buffer. *)
Theorem string_round_trip_in_stream s str rest data :
  Z.of_nat (String.length str) < 2 ^ 32 ->
  0 < Z.of_nat (String.length str) + size rest ->
  size (serializer.get_data s) + 4 + Z.of_nat (String.length str) + size rest
  <= PTRDIFF_MAX ->
  let buf := serializer.get_data (serializer.insert_string str s) ++ rest in
  extract_string data (mk buf (size (serializer.get_data s)))
  = Outcome Returned str
            (mk buf (size (serializer.get_data s) + 4
                     + Z.of_nat (String.length str))).
Proof.
  intros Hlen Hin Hmax buf.
  assert (Hsz : size (list_byte_of_string str) = Z.of_nat (String.length str)).
  { unfold size. now rewrite length_list_byte_of_string. }
  unfold buf, serializer.get_data in *.
  rewrite data_insert_string by exact Hlen.
  rewrite <- !app_assoc. unfold extract_string.
  rewrite extract_sized_framed
    by (rewrite ?Hsz; first [apply string_at_defined_0 | lia]).
  cbn [st out self]. rewrite string_of_list_byte_of_string, Hsz.
  reflexivity.
Qed.

(** And for a sequence of at least one and fewer than 2^32 bytes. *)
Theorem byte_sequence_round_trip_in_stream s value rest data :
  Forall (representable UInt8) value ->
  value <> [] ->
  Z.of_nat (List.length value) < 2 ^ 32 ->
  size (serializer.get_data s) + 4 + Z.of_nat (List.length value) + size rest
  <= PTRDIFF_MAX ->
  let buf := serializer.get_data (serializer.insert_vector UInt8 value s)
             ++ rest in
  extract_vector UInt8 data (mk buf (size (serializer.get_data s)))
  = Outcome Returned (Elements value)
            (mk buf (size (serializer.get_data s) + 4
                     + Z.of_nat (List.length value))).
Proof.
  intros Hrep Hne Hlen Hmax buf.
  assert (Hpos : 0 < Z.of_nat (List.length value)).
  { destruct value; [congruence | cbn [List.length]; lia]. }
  assert (Hsz : size (map byte.of_Z value) = Z.of_nat (List.length value)).
  { unfold size. now rewrite length_map. }
  pose proof (size_nonneg rest) as Hrest.
  unfold buf, serializer.get_data in *. rewrite data_insert_vector.
  rewrite uint32_t_small by lia. rewrite flat_map_le_split_1, <- Hsz.
  rewrite <- !app_assoc. unfold extract_vector, extract_bytes.
  rewrite extract_sized_framed.
  - cbn [st out self]. rewrite map_unsigned_of_Z by exact Hrep.
    reflexivity.
  - rewrite Hsz. exact Hlen.
  - rewrite Hsz. exact Hmax.
  - rewrite vector_at_defined_resize, length_map.
    destruct value; [congruence | reflexivity].
  - rewrite Hsz. lia.
Qed.

(** Two writes, two reads in the same order: a fixed-width value and then
    a non-empty string come back as written, and the second read ends with
    the cursor at the end of the buffer. *)
Theorem two_fields_round_trip T v str v0 str0 :
  representable T v ->
  0 < Z.of_nat (String.length str) < 2 ^ 32 ->
  let buf := serializer.get_data
               (serializer.insert_string str
                  (serializer.insert T v (serializer.create 0))) in
  let r1 := extract T v0 (create buf) in
  let r2 := extract_string str0 (self r1) in
  r1 = Outcome Returned v (mk buf (Z.of_nat (sizeof T)))
  /\ r2 = Outcome Returned str (mk buf (size buf))
  /\ get_pos (self r2) = size buf.
Proof.
  intros Hrep [Hpos Hlen] buf r1 r2. pose proof (sizeof_small T) as Hs.
  assert (Hbuf : buf = le_split (sizeof T) v
                       ++ le_split 4 (size (list_byte_of_string str))
                       ++ list_byte_of_string str).
  { unfold buf, serializer.get_data.
    rewrite data_insert_string by exact Hlen. reflexivity. }
  assert (Hstr : size (list_byte_of_string str)
                 = Z.of_nat (String.length str)).
  { unfold size. now rewrite length_list_byte_of_string. }
  assert (Hsz : size buf = Z.of_nat (sizeof T) + 4
                           + Z.of_nat (String.length str)).
  { rewrite Hbuf, !size_app. unfold size at 1 2.
    rewrite !length_le_split, Hstr. lia. }
  assert (E1 : r1 = Outcome Returned v (mk buf (Z.of_nat (sizeof T)))).
  { unfold r1, create. rewrite Hbuf.
    apply (extract_framed [] T v). - exact Hrep.
    - rewrite !size_app. unfold size at 1 2 3.
      rewrite length_le_split, Hstr. cbn [List.length].
      unfold PTRDIFF_MAX. lia. }
  assert (E2 : r2 = Outcome Returned str (mk buf (size buf))).
  { assert (Hpre : size (le_split (sizeof T) v) = Z.of_nat (sizeof T)).
    { unfold size. now rewrite length_le_split. }
    pose proof (extract_sized_framed string_at_defined
                  (le_split (sizeof T) v)
                  (list_byte_of_string str) [] (list_byte_of_string str0))
      as H.
    rewrite app_nil_r, <- Hbuf, Hpre, Hstr in H.
    unfold r2. rewrite E1. cbn [self]. unfold extract_string.
    rewrite H.
    - cbn [st out self]. rewrite string_of_list_byte_of_string, Hsz.
      reflexivity.
    - exact Hlen.
    - unfold size. cbn [List.length]. unfold PTRDIFF_MAX. lia.
    - apply string_at_defined_0.
    - unfold size. cbn [List.length]. lia. }
  split; [exact E1|]. split; [exact E2|]. rewrite E2. reflexivity.
Qed.

End InStream.

(** * The wire format *)

Section WireFormat.
Import deserializer.

Lemma insert_concatenative T v : concatenative (serializer.insert T v).
Proof. intros s. reflexivity. Qed.

Lemma insert_string_concatenative str :
  concatenative (serializer.insert_string str).
Proof.
  intros s. unfold encoding, serializer.get_data, serializer.insert_string,
    serializer.insert. cbn [serializer.data serializer.create app].
  now rewrite <- app_assoc.
Qed.

Lemma data_insert_vector_of {A : Type} (put : A -> _) value s :
  (forall element, concatenative (put element)) ->
  serializer.data (insert_vector_of put value s)
  = serializer.data s
    ++ le_split 4 (uint32_t (Z.of_nat (List.length value)))
    ++ flat_map (fun element => encoding (put element)) value.
Proof.
  intros Hput. unfold insert_vector_of.
  generalize (uint32_t (Z.of_nat (List.length value))) as n. intros n.
  assert (H : forall s0,
             serializer.data
               (fold_left (fun self element => put element self) value s0)
             = serializer.data s0
               ++ flat_map (fun element => encoding (put element)) value).
  { induction value as [| x xs IH]; intros s0; cbn [fold_left flat_map].
    - now rewrite app_nil_r.
    - rewrite IH, Hput. now rewrite <- app_assoc. }
  rewrite H. cbn [serializer.insert serializer.data sizeof].
  now rewrite <- app_assoc.
Qed.

Lemma insert_vector_of_concatenative {A : Type} (put : A -> _) value :
  (forall element, concatenative (put element)) ->
  concatenative (insert_vector_of put value).
Proof.
  intros Hput s. unfold encoding, serializer.get_data.
  rewrite !data_insert_vector_of by exact Hput. reflexivity.
Qed.

Lemma insert_vector_concatenative T value :
  concatenative (serializer.insert_vector T value).
Proof.
  apply (insert_vector_of_concatenative (serializer.insert T)).
  intros v. apply insert_concatenative.
Qed.

(** What a write appends does not depend on what the encoder holds: a
    fixed-width value, a string, a sequence of fixed-width values, of
    strings or of sequences each append what they put into an empty
    encoder, and leave the bytes before in place. *)
Theorem writes_concatenate :
  (forall T v, concatenative (serializer.insert T v))
  /\ (forall str, concatenative (serializer.insert_string str))
  /\ (forall T value, concatenative (serializer.insert_vector T value))
  /\ (forall value, concatenative (insert_vector_string value))
  /\ (forall T value, concatenative (insert_vector_vector T value)).
Proof.
  split; [exact insert_concatenative|].
  split; [exact insert_string_concatenative|].
  split; [exact insert_vector_concatenative|].
  split; intros.
  - apply insert_vector_of_concatenative, insert_string_concatenative.
  - apply insert_vector_of_concatenative. intros v.
    apply insert_vector_concatenative.
Qed.

(** A sequence of strings, and a sequence of sequences, is written as its
    count (modulo 2^32, four bytes) followed by the encodings of its
    elements in order, each with its own length prefix; a sequence of
    fixed-width values is the case where an element is its sizeof(T)
    bytes. *)
Theorem nested_sequence_layout s :
  (forall value,
      serializer.data (insert_vector_string value s)
      = serializer.data s
        ++ le_split 4 (uint32_t (Z.of_nat (List.length value)))
        ++ flat_map (fun str => encoding (serializer.insert_string str))
                    value)
  /\ (forall T value,
         serializer.data (insert_vector_vector T value s)
         = serializer.data s
           ++ le_split 4 (uint32_t (Z.of_nat (List.length value)))
           ++ flat_map (fun v => encoding (serializer.insert_vector T v))
                       value)
  /\ (forall T value,
         insert_vector_of (serializer.insert T) value s
         = serializer.insert_vector T value s).
Proof.
  split; [|split].
  - intros value. apply data_insert_vector_of.
    exact insert_string_concatenative.
  - intros T value. apply data_insert_vector_of. intros v.
    apply insert_vector_concatenative.
  - reflexivity.
Qed.

(** A string of fewer than 2^32 bytes and the sequence of its bytes have
    the same encoding, so a string that was written, if it is not empty,
    can be read as a byte sequence. *)
Theorem string_and_bytes_share_format str s data :
  Z.of_nat (String.length str) < 2 ^ 32 ->
  serializer.get_data
    (serializer.insert_vector UInt8
       (map byte.unsigned (list_byte_of_string str)) s)
  = serializer.get_data (serializer.insert_string str s)
  /\ (str <> EmptyString ->
      extract_bytes data
        (create (encoding (serializer.insert_string str)))
      = Outcome Returned (list_byte_of_string str)
                (mk (encoding (serializer.insert_string str))
                    (4 + Z.of_nat (String.length str)))).
Proof.
  intros Hlen.
  assert (Hsz : size (list_byte_of_string str) = Z.of_nat (String.length str)).
  { unfold size. now rewrite length_list_byte_of_string. }
  split.
  - unfold serializer.get_data.
    rewrite data_insert_vector, data_insert_string by exact Hlen.
    rewrite length_map, flat_map_le_split_1, map_map.
    fold (size (list_byte_of_string str)).
    rewrite uint32_t_small by (rewrite Hsz; lia).
    do 2 f_equal. rewrite <- (map_id (list_byte_of_string str)) at 2.
    apply map_ext. intros b. apply byte.of_Z_unsigned.
  - intros Hne.
    assert (Hpos : 0 < Z.of_nat (String.length str)).
    { destruct str; [congruence | cbn [String.length]; lia]. }
    unfold encoding, serializer.get_data.
    rewrite data_insert_string by exact Hlen.
    cbn [serializer.create serializer.data app]. unfold extract_bytes.
    pose proof (extract_sized_framed vector_at_defined []
                  (list_byte_of_string str) [] data) as H.
    cbn [app] in H. rewrite app_nil_r in H.
    change (size (@nil byte)) with 0 in H. unfold create.
    rewrite H.
    + rewrite Hsz. reflexivity.
    + rewrite Hsz. exact Hlen.
    + rewrite Hsz. unfold PTRDIFF_MAX. lia.
    + rewrite vector_at_defined_resize, length_list_byte_of_string.
      destruct str; [congruence | reflexivity].
    + rewrite Hsz. lia.
Qed.

Lemma skipn_nth {A : Type} (d : A) (l : list A) :
  forall i, (i < List.length l)%nat ->
            skipn i l = nth i l d :: skipn (S i) l.
Proof.
  induction l as [| x l IH]; intros i Hi; cbn [List.length] in Hi; [lia|].
  destruct i as [| i]; [reflexivity|].
  cbn [skipn nth]. rewrite IH by lia. reflexivity.
Qed.

(** After a sequence of fewer than 2^32 fixed-width values was written, a
    32-bit read at the start gives the count, and a fixed-width read at
    offset 4 + i * sizeof(T) gives element i and ends on the offset of
    element i + 1. *)
Theorem sequence_element_at T value i c0 data :
  Forall (representable T) value ->
  Z.of_nat (List.length value) < 2 ^ 32 ->
  (i < List.length value)%nat ->
  let buf := encoding (serializer.insert_vector T value) in
  extract UInt32 c0 (create buf)
  = Outcome Returned (Z.of_nat (List.length value)) (mk buf 4)
  /\ extract T data (mk buf (4 + Z.of_nat i * Z.of_nat (sizeof T)))
     = Outcome Returned (nth i value 0)
               (mk buf (4 + Z.of_nat (S i) * Z.of_nat (sizeof T))).
Proof.
  intros Hrep Hlen Hi buf. pose proof (sizeof_small T) as Hw.
  set (N := Z.of_nat (List.length value)) in *.
  set (W := Z.of_nat (sizeof T)) in *.
  set (enc := le_split (sizeof T)).
  assert (Hbuf : buf = le_split 4 N ++ flat_map enc value).
  { unfold buf, encoding, serializer.get_data.
    rewrite data_insert_vector. fold N. rewrite uint32_t_small by lia.
    reflexivity. }
  assert (Htotal : size (flat_map enc value) = N * W).
  { apply size_flat_map_le_split. }
  assert (Hbound : N * W <= 2 ^ 32 * 8) by nia.
  split.
  - unfold create. rewrite Hbuf.
    apply (extract_framed [] UInt32 N).
    + unfold representable. simpl. lia.
    + rewrite Htotal. unfold size. cbn [List.length sizeof].
      unfold PTRDIFF_MAX. lia.
  - assert (Hsplit : value
                     = firstn i value ++ nth i value 0
                                         :: skipn (S i) value).
    { rewrite <- (skipn_nth 0 value i Hi). symmetry. apply firstn_skipn. }
    assert (Hflat : flat_map enc value
                    = flat_map enc (firstn i value)
                      ++ enc (nth i value 0)
                      ++ flat_map enc (skipn (S i) value)).
    { rewrite Hsplit at 1. rewrite flat_map_app. reflexivity. }
    assert (Hpre : size (le_split 4 N ++ flat_map enc (firstn i value))
                   = 4 + Z.of_nat i * W).
    { rewrite size_app. unfold enc. rewrite size_flat_map_le_split.
      rewrite length_firstn. unfold size. rewrite length_le_split.
      fold W. lia. }
    assert (Hpost : size (flat_map enc (skipn (S i) value))
                    = (N - Z.of_nat (S i)) * W).
    { unfold enc. rewrite size_flat_map_le_split, length_skipn.
      fold W. unfold N. f_equal. lia. }
    rewrite Hbuf, Hflat, app_assoc, <- Hpre.
    replace (4 + Z.of_nat (S i) * W)
      with (size (le_split 4 N ++ flat_map enc (firstn i value)) + W)
      by (rewrite Hpre; lia).
    apply extract_framed.
    + rewrite Forall_forall in Hrep. apply Hrep, nth_In, Hi.
    + rewrite Hpre, Hpost. fold W. unfold PTRDIFF_MAX. nia.
Qed.

End WireFormat.

(** * The hex renderer on buffers below 2 GiB *)

Lemma bytes_to_hex_loop_stop rest c ss :
  0 <= c <= SIZE_MAX -> bytes_to_hex_loop rest c c ss = ss.
Proof.
  intros Hc. destruct rest; cbn [bytes_to_hex_loop];
    rewrite size_t_small, Z.ltb_irrefl by exact Hc; reflexivity.
Qed.

Lemma list_ascii_of_string_app s1 s2 :
  list_ascii_of_string (s1 ++ s2)
  = list_ascii_of_string s1 ++ list_ascii_of_string s2.
Proof.
  induction s1 as [| c s1 IH]; [reflexivity|].
  cbn [append list_ascii_of_string app]. now rewrite IH.
Qed.

Lemma hex_pairs_lower l :
  forallb is_lower_hex (list_ascii_of_string (hex_pairs l)) = true.
Proof.
  induction l as [| b l IH]; [reflexivity|].
  cbn [hex_pairs]. rewrite list_ascii_of_string_app, forallb_app, IH.
  rewrite (proj2 (put_byte_pair b)). reflexivity.
Qed.

(** [bytes_to_hex(in, count)] with [count] at most [INT32_MAX] and at most
    the number of bytes present renders the first [count] bytes and no
    more: two lower-case hex digits for each, in order, nothing else. *)
Theorem bytes_to_hex_renders_count in_ count :
  0 <= count <= size in_ ->
  count <= INT32_MAX ->
  bytes_to_hex in_ count = hex_pairs (firstn (Z.to_nat count) in_)
  /\ Z.of_nat (String.length (bytes_to_hex in_ count)) = 2 * count
  /\ forallb is_lower_hex (list_ascii_of_string (bytes_to_hex in_ count))
     = true.
Proof.
  intros Hcount Hmax.
  assert (Hlen : List.length (firstn (Z.to_nat count) in_) = Z.to_nat count).
  { rewrite length_firstn. unfold size in Hcount. lia. }
  assert (E : bytes_to_hex in_ count
              = hex_pairs (firstn (Z.to_nat count) in_)).
  { unfold bytes_to_hex.
    rewrite <- (firstn_skipn (Z.to_nat count) in_) at 1.
    rewrite bytes_to_hex_loop_prefix by (unfold size; rewrite ?Hlen; lia).
    unfold size. rewrite Hlen, Z2Nat.id by lia. cbn [Z.add append].
    apply bytes_to_hex_loop_stop. unfold SIZE_MAX, INT32_MAX in *. lia. }
  rewrite E. split; [reflexivity|]. split.
  - rewrite length_hex_pairs, Hlen. lia.
  - apply hex_pairs_lower.
Qed.

Lemma pair_value_put_byte b rest :
  byte.of_Z (pair_value (put_byte b ++ rest)) = b.
Proof. destruct b; reflexivity. Qed.

Lemma string_app_inv_head s r1 r2 :
  (s ++ r1)%string = (s ++ r2)%string -> r1 = r2.
Proof.
  induction s as [| c s IH]; cbn [append]; intros H; [exact H|].
  injection H as H. apply IH, H.
Qed.

Lemma hex_pairs_inj l1 :
  forall l2, hex_pairs l1 = hex_pairs l2 -> l1 = l2.
Proof.
  induction l1 as [| b1 l1 IH]; intros [| b2 l2] H.
  - reflexivity.
  - apply (f_equal String.length) in H. rewrite !length_hex_pairs in H.
    cbn [List.length] in H. lia.
  - apply (f_equal String.length) in H. rewrite !length_hex_pairs in H.
    cbn [List.length] in H. lia.
  - cbn [hex_pairs] in H.
    assert (Hb : b1 = b2).
    { rewrite <- (pair_value_put_byte b1 (hex_pairs l1)), H.
      apply pair_value_put_byte. }
    subst b2. apply string_app_inv_head in H.
    rewrite (IH l2 H). reflexivity.
Qed.

(** Below 2 GiB the rendering loses nothing: two byte sequences with the
    same hex text are the same sequence. *)
Theorem bytes_to_hex_injective a b :
  size a <= INT32_MAX ->
  size b <= INT32_MAX ->
  bytes_to_hex a (size a) = bytes_to_hex b (size b) ->
  a = b.
Proof.
  intros Ha Hb H. rewrite !bytes_to_hex_pairs in H by assumption.
  apply hex_pairs_inj, H.
Qed.

Lemma serializer_str_concatenative put s :
  concatenative put ->
  size (serializer.data (put s)) <= INT32_MAX ->
  serializer_str (put s)
  = (serializer_str s ++ serializer_str (put (serializer.create 0)))%string.
Proof.
  intros Hput Hmax. unfold serializer_str.
  assert (E0 : serializer.data (put (serializer.create 0)) = encoding put)
    by reflexivity.
  rewrite E0. rewrite Hput in *. rewrite size_app in Hmax.
  pose proof (size_nonneg (serializer.data s)).
  pose proof (size_nonneg (encoding put)).
  rewrite !bytes_to_hex_pairs by (rewrite ?size_app; lia).
  apply hex_pairs_app.
Qed.

(** While the buffer stays below 2 GiB, [serializer::str()] after a write
    is its text before the write followed by the text of the bytes the
    write appends. *)
Theorem str_after_write s :
  (forall T v,
      size (serializer.data (serializer.insert T v s)) <= INT32_MAX ->
      serializer_str (serializer.insert T v s)
      = (serializer_str s
         ++ serializer_str (serializer.insert T v (serializer.create 0)))
          %string)
  /\ (forall str,
         size (serializer.data (serializer.insert_string str s))
         <= INT32_MAX ->
         serializer_str (serializer.insert_string str s)
         = (serializer_str s
            ++ serializer_str
                 (serializer.insert_string str (serializer.create 0)))
             %string)
  /\ (forall T value,
         size (serializer.data (serializer.insert_vector T value s))
         <= INT32_MAX ->
         serializer_str (serializer.insert_vector T value s)
         = (serializer_str s
            ++ serializer_str
                 (serializer.insert_vector T value (serializer.create 0)))
             %string).
Proof.
  repeat split; intros.
  - apply (serializer_str_concatenative (serializer.insert T v));
      [apply insert_concatenative | assumption].
  - apply (serializer_str_concatenative (serializer.insert_string str));
      [apply insert_string_concatenative | assumption].
  - apply (serializer_str_concatenative (serializer.insert_vector T value));
      [apply insert_vector_concatenative | assumption].
Qed.

(** * The further properties at concrete inputs *)

Section FurtherInstances.
Import deserializer.

Ltac evaluate := vm_compute; first [reflexivity | discriminate].

Lemma fixed_read_fails_clean_witness :
  extract UInt32 7 (create [Byte.x01; Byte.x02])
  = Outcome (Thrown BufferOverflow) 7 (create [Byte.x01; Byte.x02]).
Proof.
  apply fixed_read_fails_clean.
  - apply valid_create. evaluate.
  - unfold representable. simpl. lia.
  - evaluate.
Defined.

Lemma reads_return_iff_witness :
  let d := create [Byte.x02; Byte.x00; Byte.x00; Byte.x00;
                   Byte.x68; Byte.x69] in
  (forall T data,
      st (extract T data d) = Returned
      <-> pos d + Z.of_nat (sizeof T) <= size (buffer d))
  /\ (forall data,
         st (extract_string data d) = Thrown BufferOverflow
         <-> size (buffer d) < pos d + 4 + peek_uint32 d)
  /\ (forall data,
         st (extract_bytes data d) = Thrown BufferOverflow
         <-> size (buffer d) < pos d + 4 + peek_uint32 d)
  /\ (forall data,
         st (extract_string data d) = Returned
         <-> pos d + 4 + peek_uint32 d <= size (buffer d)
             /\ pos d + 4 < size (buffer d))
  /\ (forall data,
         st (extract_bytes data d) = Returned
         <-> pos d + 4 + peek_uint32 d <= size (buffer d)
             /\ 0 < peek_uint32 d).
Proof.
  intros d. apply (reads_return_iff d). apply valid_create. evaluate.
Defined.

Lemma sized_read_without_prefix_witness :
  let d := create [Byte.x01; Byte.x02] in
  (forall data,
      extract_string data d = Outcome (Thrown BufferOverflow) data d)
  /\ (forall data,
      extract_bytes data d = Outcome (Thrown BufferOverflow) data d).
Proof.
  intros d. apply (sized_read_without_prefix d).
  - apply valid_create. evaluate.
  - evaluate.
Defined.

Lemma string_read_result_witness :
  let d := create [Byte.x02; Byte.x00; Byte.x00; Byte.x00;
                   Byte.x68; Byte.x69] in
  extract_string "old" d
  = Outcome Returned
            (string_of_list_byte
               (firstn (Z.to_nat (peek_uint32 d))
                       (skipn (Z.to_nat (pos d + 4)) (buffer d))))
            (mk (buffer d) (pos d + 4 + peek_uint32 d))
  /\ Z.of_nat (String.length (out (extract_string "old" d)))
     = peek_uint32 d.
Proof.
  intros d. apply (string_read_result d "old").
  - apply valid_create. evaluate.
  - evaluate.
  - evaluate.
Defined.

Lemma exhausted_buffer_rejects_reads_witness :
  let d := snd (run (ReadFixed UInt8 0) (create [Byte.x01])) in
  run (ReadString "") d = (Thrown BufferOverflow, d).
Proof.
  intros d. apply (exhausted_buffer_rejects_reads d).
  - apply reachable_valid, reachable_run, reachable_create. evaluate.
  - reflexivity.
Defined.

Lemma fixed_round_trip_in_stream_witness :
  let s := serializer.insert UInt8 1 (serializer.create 0) in
  let buf := serializer.get_data (serializer.insert UInt32 42 s)
             ++ [Byte.xff] in
  extract UInt32 0 (mk buf (size (serializer.get_data s)))
  = Outcome Returned 42
            (mk buf (size (serializer.get_data s)
                     + Z.of_nat (sizeof UInt32))).
Proof.
  intros s.
  apply (fixed_round_trip_in_stream s UInt32 42 [Byte.xff] 0).
  - unfold representable. simpl. lia.
  - evaluate.
Defined.

Lemma string_round_trip_in_stream_witness :
  let s := serializer.insert UInt32 42 (serializer.create 0) in
  let buf := serializer.get_data (serializer.insert_string "hi" s)
             ++ [Byte.xff] in
  extract_string "" (mk buf (size (serializer.get_data s)))
  = Outcome Returned "hi"%string
            (mk buf (size (serializer.get_data s) + 4
                     + Z.of_nat (String.length "hi"))).
Proof.
  intros s.
  apply (string_round_trip_in_stream s "hi" [Byte.xff] "").
  - evaluate.
  - evaluate.
  - evaluate.
Defined.

Lemma byte_sequence_round_trip_in_stream_witness :
  let s := serializer.insert UInt32 42 (serializer.create 0) in
  let buf := serializer.get_data
               (serializer.insert_vector UInt8 [1; 42; 255] s)
             ++ [Byte.xff] in
  extract_vector UInt8 [] (mk buf (size (serializer.get_data s)))
  = Outcome Returned (Elements [1; 42; 255])
            (mk buf (size (serializer.get_data s) + 4
                     + Z.of_nat (List.length [1; 42; 255]))).
Proof.
  intros s.
  apply (byte_sequence_round_trip_in_stream s [1; 42; 255] [Byte.xff] []).
  - repeat constructor; unfold representable; simpl; lia.
  - discriminate.
  - evaluate.
  - evaluate.
Defined.

Lemma two_fields_round_trip_witness :
  let buf := serializer.get_data
               (serializer.insert_string "hi"
                  (serializer.insert UInt16 513 (serializer.create 0))) in
  let r1 := extract UInt16 0 (create buf) in
  let r2 := extract_string "" (self r1) in
  r1 = Outcome Returned 513 (mk buf (Z.of_nat (sizeof UInt16)))
  /\ r2 = Outcome Returned "hi"%string (mk buf (size buf))
  /\ get_pos (self r2) = size buf.
Proof.
  apply (two_fields_round_trip UInt16 513 "hi" 0 "").
  - unfold representable. simpl. lia.
  - split; evaluate.
Defined.

Lemma string_and_bytes_share_format_witness :
  serializer.get_data
    (serializer.insert_vector UInt8
       (map byte.unsigned (list_byte_of_string "hi")) (serializer.create 0))
  = serializer.get_data
      (serializer.insert_string "hi" (serializer.create 0))
  /\ extract_bytes []
       (create (encoding (serializer.insert_string "hi")))
     = Outcome Returned (list_byte_of_string "hi")
               (mk (encoding (serializer.insert_string "hi"))
                   (4 + Z.of_nat (String.length "hi"))).
Proof.
  destruct (string_and_bytes_share_format "hi" (serializer.create 0) [])
    as [Hsame Hread].
  - evaluate.
  - split; [exact Hsame | apply Hread; discriminate].
Defined.

Lemma sequence_element_at_witness :
  let buf := encoding (serializer.insert_vector UInt16 [1; 2; 3]) in
  extract UInt32 0 (create buf)
  = Outcome Returned (Z.of_nat (List.length [1; 2; 3])) (mk buf 4)
  /\ extract UInt16 0 (mk buf (4 + Z.of_nat 1 * Z.of_nat (sizeof UInt16)))
     = Outcome Returned (nth 1 [1; 2; 3] 0)
               (mk buf (4 + Z.of_nat 2 * Z.of_nat (sizeof UInt16))).
Proof.
  apply (sequence_element_at UInt16 [1; 2; 3] 1 0 0).
  - repeat constructor; unfold representable; simpl; lia.
  - evaluate.
  - repeat constructor.
Defined.

Lemma bytes_to_hex_renders_count_witness :
  let in_ := [Byte.x00; Byte.x2a; Byte.xff] in
  bytes_to_hex in_ 2 = hex_pairs (firstn (Z.to_nat 2) in_)
  /\ Z.of_nat (String.length (bytes_to_hex in_ 2)) = 2 * 2
  /\ forallb is_lower_hex (list_ascii_of_string (bytes_to_hex in_ 2))
     = true.
Proof.
  intros in_. apply (bytes_to_hex_renders_count in_ 2).
  - split; evaluate.
  - evaluate.
Defined.

Lemma bytes_to_hex_injective_witness :
  [Byte.x00; Byte.x2a] = [Byte.x00; Byte.x2a].
Proof.
  apply (bytes_to_hex_injective [Byte.x00; Byte.x2a] [Byte.x00; Byte.x2a]).
  - evaluate.
  - evaluate.
  - reflexivity.
Defined.

Lemma str_after_write_witness :
  let s := serializer.insert UInt8 1 (serializer.create 0) in
  serializer_str (serializer.insert UInt32 42 s)
  = (serializer_str s
     ++ serializer_str (serializer.insert UInt32 42 (serializer.create 0)))
      %string.
Proof.
  intros s. apply (proj1 (str_after_write s)). evaluate.
Defined.

End FurtherInstances.
